(** * N-body simulation (src/main.cpp): embedding and verified properties

    The physics core of the program ([fsum], [integrate] and the loops of
    [main]) is written once, over an interface [Double] of the arithmetic
    the source performs on C++ [double] values.  Two interpretations of
    that interface are given:

    - [binary64]: IEEE-754 double precision, round to nearest even, through
      the executable specification [SpecFloat] of the Standard Library
      (signed zeros, infinities and NaN included); every operation of the
      source is rounded on its own, as a compiler does that neither fuses a
      product with a sum nor keeps intermediate results in a wider format;
    - [exact]: the real numbers, i.e. the same expressions without
      rounding.  It tells what the formulas of the program denote (the
      value 0.0101 of the two-body scenario, the inverse-square law); the
      behaviour of the program is stated for every interpretation or for
      [binary64].

    The bodies are drawn at random by the constructor [body()]; here the
    initial array is an input.  Printing and plotting read the array and
    appear as events only; the coordinate buffers [xcoords] and [ycoords],
    which only feed the plot, are modelled on their own.

    The argument handling of [main] ([input_verify_stoi] and the three
    conditional initialisations) is modelled over strings, with a slot of
    the [int] array that was never written represented by [None].

    Part I holds the definitions, Part II the lemmas about them, Part III
    the properties of the program, Part IV further properties of it. *)

From Stdlib Require Import ZArith Reals Lra Lia Bool List Ascii String.
From Stdlib.Floats Require Import SpecFloat.
From stdpp Require Import base list strings.

Set Default Proof Using "Type".

(** * Part I: the program *)

(** ** The arithmetic of [double] *)

Class Double (D : Type) : Type := {
  dzero : D;                 (* the literal 0.0 *)
  dconst_C : D;              (* the literal 1.01 *)
  dadd : D -> D -> D;
  dsub : D -> D -> D;
  dmul : D -> D -> D;
  ddiv : D -> D -> D;
  dsqrt : D -> D;            (* std::sqrt *)
  of_int : Z -> D            (* implicit conversion int -> double *)
}.

Declare Scope double_scope.
Delimit Scope double_scope with D.
Infix "+" := dadd : double_scope.
Infix "-" := dsub : double_scope.
Infix "*" := dmul : double_scope.
Infix "/" := ddiv : double_scope.

(** *** IEEE-754 binary64 *)

Module B64.

Definition prec : Z := 53.
Definition emax : Z := 1024.

Definition t : Type := spec_float.

Definition add : t -> t -> t := SFadd prec emax.
Definition sub : t -> t -> t := SFsub prec emax.
Definition mul : t -> t -> t := SFmul prec emax.
Definition div : t -> t -> t := SFdiv prec emax.
Definition sqrt : t -> t := SFsqrt prec emax.

(** An integer is converted by rounding it to the format; every [int] of
    32 bits is represented exactly. *)
Definition of_Z (z : Z) : t := binary_normalize prec emax z 0 false.

(** A decimal literal [n / 10^k] denotes the nearest double, which is what
    the correctly rounded quotient gives when both integers are exact
    doubles. *)
Definition of_decimal (n : Z) (k : nat) : t :=
  div (of_Z n) (of_Z (10 ^ Z.of_nat k)).

Definition zero : t := S754_zero false.
Definition nan : t := S754_nan.

(** The literal [1.01]. *)
Definition C : t := of_decimal 101 2.

(** Conversion double -> int of a value in the range of [int]: truncation
    toward zero.  There is no integer for an infinity or a NaN. *)
Definition to_Z (d : t) : option Z :=
  match d with
  | S754_zero _ => Some 0%Z
  | S754_finite s m e =>
      let a := match e with
               | Zneg p => Z.shiftr (Zpos m) (Zpos p)
               | _ => Z.shiftl (Zpos m) e
               end in
      Some (if s then Z.opp a else a)
  | _ => None
  end.

Definition is_finite (d : t) : bool :=
  match d with S754_zero _ | S754_finite _ _ _ => true | _ => false end.

(** The comparison [a == b] of two doubles. *)
Definition eqb (a b : t) : bool := SFeqb a b.

(** Two coordinates are the same when they are the same double or compare
    equal (the two zeros do). *)
Definition same_coordinate (a b : t) : Prop := a = b \/ eqb a b = true.

Definition zero_or_nan (d : t) : Prop :=
  match d with
  | S754_zero _ | S754_nan => True
  | _ => False
  end.

Definition nonzero_finite (d : t) : Prop :=
  match d with
  | S754_finite _ _ _ => True
  | _ => False
  end.

End B64.

#[export] Instance binary64 : Double B64.t := {|
  dzero := B64.zero;
  dconst_C := B64.C;
  dadd := B64.add;
  dsub := B64.sub;
  dmul := B64.mul;
  ddiv := B64.div;
  dsqrt := B64.sqrt;
  of_int := B64.of_Z
|}.

(** *** Exact real arithmetic *)

#[export] Instance exact : Double R := {|
  dzero := 0%R;
  dconst_C := (101 / 100)%R;
  dadd := Rplus;
  dsub := Rminus;
  dmul := Rmult;
  ddiv := Rdiv;
  dsqrt := sqrt;
  of_int := IZR
|}.

(** ** Bodies, force and integration *)

Section Core.
Context {D : Type} `{Double D}.
Open Scope double_scope.

(** [class body]: mass, position [(x, y)], velocity [(v, w)] and
    accumulated force [(f, g)]. *)
Record body : Type := Body {
  m : D; x : D; y : D; v : D; w : D; f : D; g : D
}.

(** [double const C=1.01;] *)
Definition C : D := dconst_C.

(** The locals of [fsum]. *)
Definition xvec (computed affecting : body) : D := x affecting - x computed.
Definition yvec (computed affecting : body) : D := y affecting - y computed.
Definition bodyd (computed affecting : body) : D :=
  dsqrt (xvec computed affecting * xvec computed affecting
         + yvec computed affecting * yvec computed affecting).
Definition fscal (computed affecting : body) : D :=
  C * m computed * m affecting
  / (bodyd computed affecting * bodyd computed affecting * bodyd computed affecting).

(** [body fsum ( body computed, body affecting )] *)
Definition fsum (computed affecting : body) : body :=
  let fs := fscal computed affecting in
  let computed1 :=
    Body (m computed) (x computed) (y computed) (v computed) (w computed)
         (f computed + fs * xvec computed affecting) (g computed) in
  Body (m computed1) (x computed1) (y computed1) (v computed1) (w computed1)
       (f computed1) (g computed1 + fs * yvec computed affecting).

(** [body integrate ( body computed, double dt )] *)
Definition integrate (computed : body) (dt : D) : body :=
  let c1 := Body (m computed) (x computed) (y computed)
                 (v computed + dt * f computed / m computed) (w computed)
                 (f computed) (g computed) in
  let c2 := Body (m c1) (x c1) (y c1) (v c1) (w c1 + dt * g c1 / m c1)
                 (f c1) (g c1) in
  let c3 := Body (m c2) (x c2 + dt * v c2) (y c2) (v c2) (w c2) (f c2) (g c2) in
  Body (m c3) (x c3) (y c3 + dt * w c3) (v c3) (w c3) (f c3) (g c3).

End Core.

Arguments body D : clear implicits.
Arguments Body {D} _ _ _ _ _ _ _.
Arguments m {D} _.
Arguments x {D} _.
Arguments y {D} _.
Arguments v {D} _.
Arguments w {D} _.
Arguments f {D} _.
Arguments g {D} _.

(** ** The simulation loop of [main] *)

(** Bounded counting loop [for (int i = 0; i < n; i++) body]. *)
Definition for_range {S : Type} (n : nat) (body : nat -> S -> S) (st : S) : S :=
  foldl (fun s i => body i s) st (seq 0 n).

(** What the loop does that is visible from outside the body array: calls
    of [fsum] and [integrate], and the emission of a body (print and
    plot).  The list is ghost state used for counting. *)
Inductive event : Type :=
  | Fsum_call (i j : nat)
  | Integrate_call (i : nat)
  | Output (i : nat).

Definition is_fsum_call (e : event) : bool :=
  match e with Fsum_call _ _ => true | _ => false end.

Definition count_fsum_calls (tr : list event) : nat :=
  length (List.filter is_fsum_call tr).

Section Loop.
Context {D : Type} `{Double D}.

(** The array [body bodies[num_bodies]] and the events so far. *)
Record machine : Type := Machine {
  bodies : list (body D);
  calls : list event
}.

Definition num_bodies (st : machine) : nat := length (bodies st).

(** [bodies[i].f = 0.0; bodies[i].g = 0.0;] *)
Definition zero_force (b : body D) : body D :=
  let b1 := Body (m b) (x b) (y b) (v b) (w b) dzero (g b) in
  Body (m b1) (x b1) (y b1) (v b1) (w b1) (f b1) dzero.

Definition reset_force (i : nat) (st : machine) : machine :=
  Machine (alter zero_force i (bodies st)) (calls st).

(** [bodies[i] = fsum( bodies[i], bodies[j] );] *)
Definition call_fsum (i j : nat) (st : machine) : machine :=
  match bodies st !! j with
  | Some bj =>
      Machine (alter (fun bi => fsum bi bj) i (bodies st))
              (calls st ++ [Fsum_call i j])
  | None => st
  end.

(** [bodies[i] = integrate( bodies[i], delta_t );] with [int delta_t]. *)
Definition call_integrate (delta_t : Z) (i : nat) (st : machine) : machine :=
  Machine (alter (fun bi => integrate bi (of_int delta_t)) i (bodies st))
          (calls st ++ [Integrate_call i]).

(** [print_output( bodies[i] ); pls->poin(...); sleep_for(...)]: the body
    is printed and the coordinate buffers plotted; the array is only read. *)
Definition print_output (i : nat) (st : machine) : machine :=
  Machine (bodies st) (calls st ++ [Output i]).

(** "Calculate sum of forces", lines 165-172. *)
Definition force_inner (i j : nat) (st : machine) : machine :=
  if decide (j = i) then st else call_fsum i j st.

Definition force_outer (n i : nat) (st : machine) : machine :=
  for_range n (force_inner i) (reset_force i st).

Definition force_phase (st : machine) : machine :=
  let n := num_bodies st in for_range n (force_outer n) st.

(** "Solve ODEs", lines 175-179. *)
Definition solve_phase (delta_t : Z) (st : machine) : machine :=
  for_range (num_bodies st) (call_integrate delta_t) st.

(** Lines 180-184. *)
Definition output_phase (st : machine) : machine :=
  for_range (num_bodies st) print_output st.

(** One iteration of the loop over [timestep]. *)
Definition timestep_body (delta_t : Z) (st : machine) : machine :=
  output_phase (solve_phase delta_t (force_phase st)).

(** [for (int timestep = 0; timestep < iterations; timestep++)] *)
Definition simulation_loop (iterations delta_t : Z) (st : machine) : machine :=
  for_range (Z.to_nat iterations) (fun _ => timestep_body delta_t) st.

End Loop.

Arguments machine D : clear implicits.
Arguments Machine {D} _ _.

(** ** Argument handling of [main] *)

Module Cli.

Open Scope Z_scope.

Definition INT_MAX : Z := 2147483647.
Definition INT_MIN : Z := -2147483648.

Definition newline : string := String (ascii_of_nat 10) EmptyString.

(** [std::isspace] in the C locale: space, and the controls 9 to 13. *)
Definition isspace (c : ascii) : bool :=
  let n := Z.of_nat (nat_of_ascii c) in
  (n =? 32) || ((9 <=? n) && (n <=? 13)).

Definition digit_of (c : ascii) : option Z :=
  let n := Z.of_nat (nat_of_ascii c) in
  if (48 <=? n) && (n <=? 57) then Some (n - 48) else None.

Fixpoint skip_space (s : string) : nat * string :=
  match s with
  | String c s' =>
      if isspace c then let '(k, r) := skip_space s' in (S k, r) else (0%nat, s)
  | EmptyString => (0%nat, s)
  end.

(** Longest prefix of decimal digits: its value (continuing [acc]) and its
    length. *)
Fixpoint read_digits (s : string) (acc : Z) : Z * nat :=
  match s with
  | String c s' =>
      match digit_of c with
      | Some d => let '(z, k) := read_digits s' (10 * acc + d) in (z, S k)
      | None => (acc, 0%nat)
      end
  | EmptyString => (acc, 0%nat)
  end.

(** [std::stoi(arg, &pos)] in base 10 (C++ standard library, through
    [strtol]): leading white space, an optional sign, then as many digits
    as there are.  It throws [std::invalid_argument] when there is no
    digit and [std::out_of_range] when the value is not an [int]; otherwise
    it returns the value and stores the number of characters read. *)
Inductive stoi_result : Type :=
  | Stoi_ok (value : Z) (pos : nat)
  | Invalid_argument
  | Out_of_range.

Definition stoi (arg : string) : stoi_result :=
  let '(nspace, s1) := skip_space arg in
  let '(negative, nsign, s2) :=
    match s1 with
    | String "-"%char r => (true, 1%nat, r)
    | String "+"%char r => (false, 1%nat, r)
    | _ => (false, 0%nat, s1)
    end in
  let '(magnitude, ndigits) := read_digits s2 0 in
  if (ndigits =? 0)%nat then Invalid_argument
  else
    let value := if negative then - magnitude else magnitude in
    if (value <? INT_MIN) || (INT_MAX <? value) then Out_of_range
    else Stoi_ok value (nspace + nsign + ndigits)%nat.

(** The array [int input[argc]] (a slot holds [None] until it is written)
    and what was sent to [std::cerr]. *)
Record verify_state : Type := Verify_state {
  verified : list (option Z);
  cerr : list string
}.

(** Body of the loop of [input_verify_stoi] for index [i]. *)
Definition verify_arg (vec : list string) (st : verify_state) (i : nat) : verify_state :=
  match vec !! i with
  | Some arg =>
      match stoi arg with
      | Stoi_ok value pos =>
          Verify_state (<[i := Some value]> (verified st))
            (if (pos <? String.length arg)%nat
             then cerr st ++ ["Trailing characters after number: " +:+ arg +:+ newline]
             else cerr st)
      | Invalid_argument =>
          Verify_state (verified st) (cerr st ++ ["Invalid number: " +:+ arg +:+ newline])
      | Out_of_range =>
          Verify_state (verified st) (cerr st ++ ["Number out of range: " +:+ arg +:+ newline])
      end
  | None => st
  end.

(** [void input_verify_stoi(std::vector<std::string> vec, int *verified)]:
    [for (unsigned i = 1; i < vec.size(); i++)]. *)
Definition input_verify_stoi (vec : list string) (st : verify_state) : verify_state :=
  foldl (verify_arg vec) st (seq 1 (length vec - 1)).

(** The three parameters of the run; [None] stands for the indeterminate
    value obtained by reading a slot of [input] that was never written. *)
Record config : Type := Config {
  num_bodies : option Z;
  iterations : option Z;
  delta_t : option Z
}.

(** Reading [input[k]]. *)
Definition read_input (input : list (option Z)) (k : nat) : option Z :=
  match input !! k with
  | Some slot => slot
  | None => None
  end.

(** Lines 127-133.  In [(argc > 3) ? input[3] : 1.0] both branches have
    type [double]; the result initialises the [int delta_t]. *)
Definition main_config (argv : list string) : config * list string :=
  let argc := length argv in
  let input := replicate argc None in
  let st := input_verify_stoi argv (Verify_state input []) in
  (Config
     (if (1 <? argc)%nat then read_input (verified st) 1 else Some 10)
     (if (2 <? argc)%nat then read_input (verified st) 2 else Some 100)
     ((if (3 <? argc)%nat
       then B64.of_Z <$> read_input (verified st) 3
       else Some (B64.of_decimal 10 1)) ≫= B64.to_Z),
   cerr st).

(** The whole of [main], given the bodies the constructor [body()] drew:
    [None] when a parameter is indeterminate or the array does not have
    [num_bodies] elements. *)
Definition main (argv : list string) (initial : list (body B64.t))
  : option (machine B64.t) * list string :=
  let '(cfg, err) := main_config argv in
  (match num_bodies cfg, iterations cfg, delta_t cfg with
   | Some n, Some it, Some dt =>
       if decide (Z.of_nat (length initial) = n)
       then Some (simulation_loop it dt (Machine initial []))
       else None
   | _, _, _ => None
   end, err).

End Cli.

(** ** Vocabulary of the statements *)

(** The indices [j <> i] below [n], in the order the inner loop visits
    them. *)
Definition others (i n : nat) : list nat := filter (fun j => j <> i) (seq 0 n).

(** The events of the force phase over [n] bodies, for the outer indices
    below [k]; the events of one whole timestep. *)
Definition force_calls (n k : nat) : list event :=
  flat_map (fun i => Fsum_call i <$> others i n) (seq 0 k).

Definition timestep_calls (n : nat) : list event :=
  force_calls n n ++ (Integrate_call <$> seq 0 n) ++ (Output <$> seq 0 n).

Section Vocabulary.
Context {D : Type} `{Double D}.
Open Scope double_scope.

(** What [fsum] reads of the affecting body, and of the computed body
    apart from its force: mass and position. *)
Definition same_source (a b : body D) : Prop :=
  m a = m b /\ x a = x b /\ y a = y b.

(** A body that differs from [b] in its force only. *)
Definition same_kinematics (a b : body D) : Prop :=
  m a = m b /\ x a = x b /\ y a = y b /\ v a = v b /\ w a = w b.

(** The contribution of [bj] to the force on [bi]: what one call
    [fsum bi bj] adds to [f] and to [g]. *)
Definition pair_force_x (bi bj : body D) : D := fscal bi bj * xvec bi bj.
Definition pair_force_y (bi bj : body D) : D := fscal bi bj * yvec bi bj.

(** One inner iteration as a function of the computed body, reading the
    affecting body from the array [bs]. *)
Definition fsum_at (bs : list (body D)) (acc : body D) (j : nat) : body D :=
  match bs !! j with
  | Some bj => fsum acc bj
  | None => acc
  end.

(** The value of body [i] after the force phase, from the array [bs] the
    phase started with. *)
Definition accumulated (bs : list (body D)) (i : nat) (bi : body D) : body D :=
  foldl (fsum_at bs) (zero_force bi) (others i (length bs)).

(** State of the array after [k] iterations of the outer force loop that
    started in [st0]. *)
Definition force_inv (st0 : machine D) (k : nat) (s : machine D) : Prop :=
  length (bodies s) = num_bodies st0 /\
  (forall j, bodies s !! j =
             (fun b => if decide (j < k) then accumulated (bodies st0) j b else b)
               <$> bodies st0 !! j) /\
  calls s = calls st0 ++ force_calls (num_bodies st0) k.

(** The two-body configuration: masses 1, at rest at [(0,0)] and [(10,0)]. *)
Definition two_body : machine D :=
  Machine [Body (of_int 1) dzero dzero dzero dzero dzero dzero;
           Body (of_int 1) (of_int 10) dzero dzero dzero dzero dzero] [].


(** Bodies of mass 1 and 2 on the same point [(3, 4)], and a population of
    two of the first. *)
Definition light_at_3_4 : body D :=
  Body (of_int 1) (of_int 3) (of_int 4) dzero dzero dzero dzero.
Definition heavy_at_3_4 : body D :=
  Body (of_int 2) (of_int 3) (of_int 4) dzero dzero dzero dzero.
Definition coincident_pair : machine D := Machine [light_at_3_4; light_at_3_4] [].


(** The call an event stands for, made on the array: [Fsum_call i j] is
    [bodies[i] = fsum( bodies[i], bodies[j] )], [Integrate_call i] is
    [bodies[i] = integrate( bodies[i], delta_t )]; an output leaves the
    array as it is. *)
Definition perform (delta_t : Z) (bs : list (body D)) (e : event) : list (body D) :=
  match e with
  | Fsum_call i j =>
      match bs !! j with
      | Some bj => alter (fun bi => fsum bi bj) i bs
      | None => bs
      end
  | Integrate_call i => alter (fun bi => integrate bi (of_int delta_t)) i bs
  | Output _ => bs
  end.

End Vocabulary.





Definition sample_pushed : body R := (Body 2 1 1 3 0 4 0)%R.

(** Decimal numerals: the string of a list of digits, most significant
    first, and its value. *)
Definition digit_char (d : Z) : ascii := ascii_of_nat (48 + Z.to_nat d).

Definition digits_string (ds : list Z) : string :=
  foldr (fun d s => String (digit_char d) s) EmptyString ds.

Definition decimal_value (ds : list Z) : Z :=
  foldl (fun a d => (10 * a + d)%Z) 0%Z ds.

Definition is_digit (d : Z) : Prop := (0 <= d <= 9)%Z.

(** The parameter of the run at position [k] of the command line: [1] the
    number of bodies, [2] the number of iterations, [3] the time step. *)
Definition parameter (cfg : Cli.config) (k : nat) : option Z :=
  match k with
  | 1 => Cli.num_bodies cfg
  | 2 => Cli.iterations cfg
  | 3 => Cli.delta_t cfg
  | _ => None
  end.

(** The array [input] and the error stream after [input_verify_stoi]. *)
Definition parsed (argv : list string) : Cli.verify_state :=
  Cli.input_verify_stoi argv (Cli.Verify_state (replicate (length argv) None) []).

(** A string that does not go on with a digit. *)
Definition no_leading_digit (s : string) : Prop :=
  match s with
  | String c _ => Cli.digit_of c = None
  | EmptyString => True
  end.

(** ** Vocabulary of the further properties *)

(** [stoi] read after [n] more characters were consumed. *)
Definition shift_pos (n : nat) (r : Cli.stoi_result) : Cli.stoi_result :=
  match r with
  | Cli.Stoi_ok value pos => Cli.Stoi_ok value (n + pos)
  | _ => r
  end.

(** The optional sign as [stoi] reads it: whether it is a minus, how many
    characters it takes, and what follows. *)
Definition strip_sign (s : string) : bool * nat * string :=
  match s with
  | String "-"%char r => (true, 1%nat, r)
  | String "+"%char r => (false, 1%nat, r)
  | _ => (false, 0%nat, s)
  end.

(** Strings of white space only, and strings without any decimal digit. *)
Fixpoint all_space (s : string) : Prop :=
  match s with
  | EmptyString => True
  | String c s' => Cli.isspace c = true /\ all_space s'
  end.

Fixpoint no_digit (s : string) : Prop :=
  match s with
  | EmptyString => True
  | String c s' => Cli.digit_of c = None /\ no_digit s'
  end.

(** An optional sign: none, [+] or [-]. *)
Inductive sign : Type := No_sign | Plus | Minus.

Definition sign_string (sg : sign) : string :=
  match sg with
  | No_sign => ""
  | Plus => "+"
  | Minus => "-"
  end.

Definition signed (sg : sign) (z : Z) : Z :=
  match sg with
  | Minus => (- z)%Z
  | _ => z
  end.

(** What the loop of [input_verify_stoi] leaves in the slot of an argument
    and what it sends to [std::cerr] for it. *)
Definition slot_of (arg : string) : option Z :=
  match Cli.stoi arg with
  | Cli.Stoi_ok value _ => Some value
  | _ => None
  end.

Definition diagnostic (arg : string) : list string :=
  match Cli.stoi arg with
  | Cli.Stoi_ok _ pos =>
      if (pos <? String.length arg)%nat
      then ["Trailing characters after number: " +:+ arg +:+ Cli.newline]
      else []
  | Cli.Invalid_argument => ["Invalid number: " +:+ arg +:+ Cli.newline]
  | Cli.Out_of_range => ["Number out of range: " +:+ arg +:+ Cli.newline]
  end.

(** The defaults of the three parameters. *)
Definition default_parameter (k : nat) : Z :=
  match k with
  | 1 => 10%Z
  | 2 => 100%Z
  | _ => 1%Z
  end.

Definition is_integrate_call (e : event) : bool :=
  match e with Integrate_call _ => true | _ => false end.

Definition is_output (e : event) : bool :=
  match e with Output _ => true | _ => false end.

(** The events of [t] timesteps over [n] bodies. *)
Fixpoint run_calls (n t : nat) : list event :=
  match t with
  | 0 => []
  | S t' => run_calls n t' ++ timestep_calls n
  end.

Section RunVocabulary.
Context {D : Type} `{Double D}.

(** What one timestep makes of body [i] of the array [bs]: its force is
    summed over the other bodies of [bs], then it is integrated. *)
Definition advanced (delta_t : Z) (bs : list (body D)) (i : nat) (bi : body D) : body D :=
  integrate (foldl fsum (zero_force bi) (delete i bs)) (of_int delta_t).

(** The calls of one timestep over [n] bodies made one after the other on
    the array [bs] with every force cleared. *)
Definition replay (delta_t : Z) (n : nat) (bs : list (body D)) : list (body D) :=
  foldl (perform delta_t) (zero_force <$> bs) (timestep_calls n).

End RunVocabulary.

(** A body whose position is not a number, and a body that has become
    useless: position and velocity are all NaN. *)
Definition nan_position (b : body B64.t) : Prop := x b = B64.nan \/ y b = B64.nan.

Definition all_nan (b : body B64.t) : Prop :=
  x b = B64.nan /\ y b = B64.nan /\ v b = B64.nan /\ w b = B64.nan.

Definition nan_force (b : body B64.t) : Prop := f b = B64.nan /\ g b = B64.nan.

(** ** The plot buffers *)

Section Plot.
Context {D : Type} `{Double D}.

(** The array of bodies with the buffers [PLFLT xcoords[num_bodies],
    ycoords[num_bodies]]; a slot holds [None] until it is written. *)
Record plot_machine : Type := Plot_machine {
  plot_bodies : list (body D);
  xcoords : list (option D);
  ycoords : list (option D)
}.

(** The body of the loop of lines 175-179:
    [bodies[i] = integrate( bodies[i], delta_t ); xcoords[i] = bodies[i].x;
     ycoords[i] = bodies[i].y;] *)
Definition solve_iteration (delta_t : Z) (i : nat) (pm : plot_machine) : plot_machine :=
  let bs := alter (fun bi => integrate bi (of_int delta_t)) i (plot_bodies pm) in
  match bs !! i with
  | Some b => Plot_machine bs (<[i := Some (x b)]> (xcoords pm))
                              (<[i := Some (y b)]> (ycoords pm))
  | None => Plot_machine bs (xcoords pm) (ycoords pm)
  end.

Definition solve_loop (delta_t : Z) (pm : plot_machine) : plot_machine :=
  for_range (length (plot_bodies pm)) (solve_iteration delta_t) pm.

End Plot.

Arguments plot_machine D : clear implicits.
Arguments Plot_machine {D} _ _ _.

(** The parameter at position [k] as the command line gives it: the default
    without an argument, else what [stoi] makes of the argument. *)
Definition supplied (argv : list string) (k : nat) : option Z :=
  match argv !! k with
  | Some arg => slot_of arg
  | None => Some (default_parameter k)
  end.

(** The position of a body alone after [t] steps in binary64: [t] rounded
    additions of the rounded product of the time step and the velocity. *)
Definition b64_drift (dt vel : B64.t) (t : nat) (p : B64.t) : B64.t :=
  Nat.iter t (fun q => B64.add q (B64.mul dt vel)) p.

(** A double that is finite and not the negative zero: adding a zero of
    either sign to it returns it bit for bit. *)
Definition b64_plain (d : B64.t) : Prop :=
  match d with
  | S754_finite _ _ _ | S754_zero false => True
  | _ => False
  end.

(** Sample inputs in binary64: a body with a NaN abscissa beside a sound
    one, and a moving body of mass 2. *)
Definition lost_body : body B64.t :=
  Body (B64.of_Z 1) B64.nan B64.zero B64.zero B64.zero B64.zero B64.zero.
Definition sound_body : body B64.t :=
  Body (B64.of_Z 1) (B64.of_Z 7) (B64.of_Z 2) B64.zero B64.zero B64.zero B64.zero.
Definition moving_body : body B64.t :=
  Body (B64.of_Z 2) (B64.of_Z 1) (B64.of_Z 1) (B64.of_Z 3) B64.zero B64.zero B64.zero.

(** * Part II: lemmas *)

(** ** Loops *)

Lemma for_range_0 {S : Type} (body : nat -> S -> S) (st : S) :
  for_range 0 body st = st.
Proof. reflexivity. Qed.

Lemma for_range_S {S : Type} (n : nat) (body : nat -> S -> S) (st : S) :
  for_range (Datatypes.S n) body st = body n (for_range n body st).
Proof. unfold for_range. rewrite seq_S, foldl_snoc. reflexivity. Qed.

(** Loop invariant rule: [P k] holds after [k] iterations. *)
Lemma for_range_inv {S : Type} (P : nat -> S -> Prop) (n : nat)
    (body : nat -> S -> S) (st : S) :
  P 0 st ->
  (forall i s, i < n -> P i s -> P (Datatypes.S i) (body i s)) ->
  P n (for_range n body st).
Proof.
  intros H0 Hstep.
  assert (Hk : forall k, k <= n -> P k (for_range k body st)).
  { induction k as [|k IH]; intros Hle.
    - exact H0.
    - rewrite for_range_S. apply Hstep; [lia | apply IH; lia]. }
  apply Hk. lia.
Qed.

Lemma others_S (i n : nat) :
  others i (S n) = others i n ++ (if decide (n = i) then [] else [n]).
Proof.
  unfold others. rewrite seq_S, filter_app. f_equal. simpl.
  destruct (decide (n = i)) as [->|Hne].
  - rewrite filter_cons_False by (intros Hc; apply Hc; reflexivity). reflexivity.
  - rewrite filter_cons_True by exact Hne. reflexivity.
Qed.

Lemma elem_of_others (i n j : nat) : j ∈ others i n <-> j <> i /\ j < n.
Proof.
  unfold others. rewrite list_elem_of_filter, elem_of_seq. split; intros [? ?]; split; auto; lia.
Qed.

Lemma length_others (i n : nat) :
  length (others i n) = if decide (i < n) then n - 1 else n.
Proof.
  induction n as [|n IH].
  - destruct (decide (i < 0)); [lia | reflexivity].
  - rewrite others_S, length_app, IH.
    destruct (decide (n = i)), (decide (i < n)), (decide (i < S n));
      simpl; lia.
Qed.

Lemma force_calls_S (n k : nat) :
  force_calls n (S k) = force_calls n k ++ (Fsum_call k <$> others k n).
Proof.
  unfold force_calls. rewrite seq_S, flat_map_app. simpl. rewrite app_nil_r. reflexivity.
Qed.

(** ** Frame properties of [fsum] and [integrate] *)

Section CoreFacts.

Context {D : Type} `{Double D}.
Open Scope double_scope.

Lemma same_source_refl (a : body D) : same_source a a.
Proof. repeat split. Qed.

Lemma fscal_ext (c c' a a' : body D) :
  same_source c c' -> same_source a a' -> fscal c a = fscal c' a'.
Proof.
  unfold same_source, fscal, bodyd, xvec, yvec.
  intros (-> & -> & ->) (-> & -> & ->). reflexivity.
Qed.

Lemma fsum_ext (c a a' : body D) : same_source a a' -> fsum c a = fsum c a'.
Proof.
  intros Ha. unfold fsum. simpl.
  rewrite (fscal_ext c c a a' (same_source_refl c) Ha).
  destruct Ha as (_ & Hx & Hy). unfold xvec, yvec. rewrite Hx, Hy. reflexivity.
Qed.

Lemma fsum_frame (c a : body D) :
  m (fsum c a) = m c /\ x (fsum c a) = x c /\ y (fsum c a) = y c /\
  v (fsum c a) = v c /\ w (fsum c a) = w c.
Proof. repeat split. Qed.

Lemma integrate_frame (c : body D) (dt : D) :
  m (integrate c dt) = m c /\ f (integrate c dt) = f c /\ g (integrate c dt) = g c.
Proof. repeat split. Qed.

Lemma integrate_eqns (c : body D) (dt : D) :
  v (integrate c dt) = v c + dt * f c / m c /\
  w (integrate c dt) = w c + dt * g c / m c /\
  x (integrate c dt) = x c + dt * v (integrate c dt) /\
  y (integrate c dt) = y c + dt * w (integrate c dt).
Proof. repeat split. Qed.

(** The two functions as one record each. *)
Lemma fsum_unfold (c a : body D) :
  fsum c a =
  Body (m c) (x c) (y c) (v c) (w c)
       (f c + fscal c a * xvec c a) (g c + fscal c a * yvec c a).
Proof. reflexivity. Qed.

Lemma integrate_unfold (c : body D) (dt : D) :
  integrate c dt =
  Body (m c)
       (x c + dt * (v c + dt * f c / m c)) (y c + dt * (w c + dt * g c / m c))
       (v c + dt * f c / m c) (w c + dt * g c / m c) (f c) (g c).
Proof. reflexivity. Qed.

Lemma zero_force_same_kinematics (a b : body D) :
  same_kinematics a b -> zero_force a = zero_force b.
Proof.
  unfold same_kinematics, zero_force. simpl.
  intros (-> & -> & -> & -> & ->). reflexivity.
Qed.

(** Repeated [fsum] over a list of affecting bodies. *)
Lemma foldl_fsum_frame (l : list (body D)) (acc : body D) :
  same_kinematics (foldl fsum acc l) acc.
Proof.
  revert acc. induction l as [|a l IH]; intros acc; simpl.
  - repeat split.
  - exact (IH (fsum acc a)).
Qed.

Lemma foldl_fsum_force (bi : body D) (l : list (body D)) (acc : body D) :
  same_source acc bi ->
  f (foldl fsum acc l) = foldl (fun s bj => s + pair_force_x bi bj) (f acc) l /\
  g (foldl fsum acc l) = foldl (fun s bj => s + pair_force_y bi bj) (g acc) l.
Proof.
  revert acc. induction l as [|a l IH]; intros acc Hacc; simpl.
  - split; reflexivity.
  - assert (Hs : same_source (fsum acc a) bi).
    { destruct Hacc as (? & ? & ?). repeat split; assumption. }
    destruct (IH _ Hs) as [-> ->].
    unfold pair_force_x, pair_force_y.
    rewrite <- (fscal_ext acc bi a a Hacc (same_source_refl a)).
    destruct Hacc as (_ & Hx & Hy).
    replace (xvec bi a) with (xvec acc a) by (unfold xvec; rewrite Hx; reflexivity).
    replace (yvec bi a) with (yvec acc a) by (unfold yvec; rewrite Hy; reflexivity).
    split; reflexivity.
Qed.

End CoreFacts.

(** ** The force accumulation phase *)

Lemma delete_snoc {A : Type} (l : list A) (b : A) (i : nat) :
  delete i (l ++ [b]) =
  if decide (i < length l) then delete i l ++ [b]
  else if decide (i = length l) then l else l ++ [b].
Proof.
  revert i. induction l as [|a l IH]; intros [|i]; simpl;
    try rewrite IH; repeat case_decide; simpl in *; try lia; reflexivity.
Qed.

Lemma delete_out_of_range {A : Type} (l : list A) (i : nat) :
  length l <= i -> delete i l = l.
Proof.
  revert i. induction l as [|a l IH]; intros [|i] Hi; simpl in *; try reflexivity; try lia.
  f_equal. apply IH. lia.
Qed.

Section LoopFacts.

Context {D : Type} `{Double D}.

Lemma force_inner_loop (i k : nat) (st : machine D) :
  k <= num_bodies st ->
  for_range k (force_inner i) st =
  Machine (alter (fun bi => foldl (fsum_at (bodies st)) bi (others i k)) i (bodies st))
          (calls st ++ (Fsum_call i <$> others i k)).
Proof.
  unfold num_bodies. induction k as [|k IH]; intros Hk.
  - rewrite for_range_0. destruct st as [bs tr]. simpl.
    rewrite list_alter_id by reflexivity. rewrite app_nil_r. reflexivity.
  - rewrite for_range_S, IH by lia. rewrite others_S.
    unfold force_inner. destruct (decide (k = i)) as [->|Hne].
    + rewrite !app_nil_r. reflexivity.
    + unfold call_fsum. simpl.
      rewrite list_lookup_alter_ne by congruence.
      destruct (lookup_lt_is_Some_2 (bodies st) k) as [bk Hbk]; [lia|].
      rewrite Hbk. f_equal.
      * rewrite list_alter_alter_eq. apply list_alter_ext; [|reflexivity].
        intros bi _. simpl. rewrite foldl_snoc. unfold fsum_at at 2.
        rewrite Hbk. reflexivity.
      * rewrite fmap_app, app_assoc. reflexivity.
Qed.

Lemma foldl_fsum_at_ext (bs bs' : list (body D)) (l : list nat) (acc : body D) :
  (forall j, j ∈ l ->
     match bs !! j, bs' !! j with
     | Some a, Some a' => same_source a a'
     | None, None => True
     | _, _ => False
     end) ->
  foldl (fsum_at bs) acc l = foldl (fsum_at bs') acc l.
Proof.
  revert acc. induction l as [|j l IH]; intros acc Hl; simpl; [reflexivity|].
  assert (Hj : fsum_at bs acc j = fsum_at bs' acc j).
  { specialize (Hl j (list_elem_of_here _ _)). unfold fsum_at.
    destruct (bs !! j), (bs' !! j); try contradiction; [|reflexivity].
    apply fsum_ext. exact Hl. }
  rewrite Hj. apply IH. intros j' Hj'. apply Hl. apply list_elem_of_further. exact Hj'.
Qed.

Lemma foldl_fsum_at_frame (bs : list (body D)) (l : list nat) (acc : body D) :
  same_kinematics (foldl (fsum_at bs) acc l) acc.
Proof.
  revert acc. induction l as [|j l IH]; intros acc; simpl.
  - repeat split.
  - unfold fsum_at at 2. destruct (bs !! j) as [bj|]; [|apply IH].
    exact (IH (fsum acc bj)).
Qed.

(** The inner loop reads the bodies in array order, leaving out [i]. *)
Lemma foldl_fsum_at_delete (bs : list (body D)) (i : nat) (acc : body D) :
  foldl (fsum_at bs) acc (others i (length bs)) = foldl fsum acc (delete i bs).
Proof.
  assert (Hk : forall k, k <= length bs ->
    foldl (fsum_at bs) acc (others i k) = foldl fsum acc (delete i (take k bs))).
  { induction k as [|k IH]; intros Hle.
    - reflexivity.
    - destruct (lookup_lt_is_Some_2 bs k) as [bk Hbk]; [lia|].
      rewrite others_S, foldl_app, IH by lia.
      rewrite (take_S_r _ _ _ Hbk), delete_snoc, length_take.
      replace (k `min` length bs) with k by lia.
      destruct (decide (k = i)) as [->|Hne]; simpl.
      + destruct (decide (i < i)); [lia|]. destruct (decide (i = i)); [|lia].
        rewrite delete_out_of_range by (rewrite length_take; lia). reflexivity.
      + destruct (decide (i < k)).
        * rewrite foldl_snoc. unfold fsum_at. rewrite Hbk. reflexivity.
        * destruct (decide (i = k)); [lia|].
          rewrite delete_out_of_range by (rewrite length_take; lia).
          rewrite foldl_snoc. unfold fsum_at. rewrite Hbk. reflexivity. }
  rewrite Hk by lia. rewrite take_ge by lia. reflexivity.
Qed.

Lemma accumulated_frame (bs : list (body D)) (i : nat) (bi : body D) :
  same_kinematics (accumulated bs i bi) bi.
Proof.
  unfold accumulated.
  exact (foldl_fsum_at_frame bs (others i (length bs)) (zero_force bi)).
Qed.

Lemma force_outer_step (st0 : machine D) (i : nat) (s : machine D) :
  i < num_bodies st0 ->
  force_inv st0 i s -> force_inv st0 (S i) (force_outer (num_bodies st0) i s).
Proof.
  intros Hi (Hlen & Hlook & Hcalls). unfold force_outer.
  rewrite force_inner_loop
    by (unfold num_bodies, reset_force in *; simpl; rewrite length_alter; lia).
  unfold force_inv, reset_force. simpl. split; [|split].
  - rewrite !length_alter. exact Hlen.
  - intros j. destruct (decide (j = i)) as [->|Hne].
    + rewrite !list_lookup_alter_eq, Hlook.
      destruct (bodies st0 !! i) as [bi|] eqn:Hbi; simpl; [|reflexivity].
      destruct (decide (i < i)); [lia|]. destruct (decide (i < S i)); [|lia].
      f_equal. unfold accumulated. fold (num_bodies st0).
      apply foldl_fsum_at_ext. intros j Hj.
      apply elem_of_others in Hj as [Hji Hjn].
      rewrite list_lookup_alter_ne by congruence. rewrite Hlook.
      destruct (lookup_lt_is_Some_2 (bodies st0) j) as [bj Hbj]; [exact Hjn|].
      rewrite Hbj. simpl. destruct (decide (j < i)).
      * destruct (accumulated_frame (bodies st0) j bj) as (? & ? & ? & _).
        repeat split; assumption.
      * apply same_source_refl.
    + rewrite !list_lookup_alter_ne by congruence. rewrite Hlook.
      destruct (bodies st0 !! j) as [bj|]; simpl; [|reflexivity].
      destruct (decide (j < i)), (decide (j < S i)); try lia; reflexivity.
  - rewrite Hcalls, force_calls_S, app_assoc. reflexivity.
Qed.

Lemma force_phase_spec (st : machine D) :
  length (bodies (force_phase st)) = num_bodies st /\
  (forall j, bodies (force_phase st) !! j =
             accumulated (bodies st) j <$> bodies st !! j) /\
  calls (force_phase st) = calls st ++ force_calls (num_bodies st) (num_bodies st).
Proof.
  assert (Hinv : force_inv st (num_bodies st) (force_phase st)).
  { unfold force_phase. apply for_range_inv.
    - split; [reflexivity|]. split.
      + intros j. destruct (bodies st !! j); simpl; [|reflexivity].
        destruct (decide (j < 0)); [lia | reflexivity].
      + unfold force_calls. simpl. rewrite app_nil_r. reflexivity.
    - intros i s Hi Hs. apply force_outer_step; assumption. }
  destruct Hinv as (Hlen & Hlook & Hcalls). split; [exact Hlen|]. split; [|exact Hcalls].
  intros j. rewrite Hlook.
  destruct (bodies st !! j) as [bj|] eqn:Hbj; simpl; [|reflexivity].
  apply lookup_lt_Some in Hbj. unfold num_bodies.
  destruct (decide (j < length (bodies st))); [reflexivity | lia].
Qed.

(** The force phase does not read the forces it finds. *)
Lemma force_phase_ignores_old_force (st st' : machine D) :
  Forall2 same_kinematics (bodies st) (bodies st') ->
  bodies (force_phase st) = bodies (force_phase st').
Proof.
  intros Hsame.
  destruct (force_phase_spec st) as (_ & Hlook & _).
  destruct (force_phase_spec st') as (_ & Hlook' & _).
  apply list_eq. intros i. rewrite Hlook, Hlook'.
  destruct (bodies st !! i) as [bi|] eqn:Hi.
  - destruct (Forall2_lookup_l _ _ _ _ _ Hsame Hi) as (bi' & Hi' & Hk).
    rewrite Hi'. cbn [fmap option_fmap option_map]. f_equal.
    unfold accumulated.
    rewrite (zero_force_same_kinematics bi bi' Hk), (Forall2_length _ _ _ Hsame).
    apply foldl_fsum_at_ext. intros j _.
    destruct (bodies st !! j) as [bj|] eqn:Hj.
    + destruct (Forall2_lookup_l _ _ _ _ _ Hsame Hj) as (bj' & -> & (? & ? & ? & _)).
      repeat split; assumption.
    + apply lookup_ge_None in Hj. rewrite (Forall2_length _ _ _ Hsame) in Hj.
      apply lookup_ge_None in Hj. rewrite Hj. exact I.
  - apply lookup_ge_None in Hi. rewrite (Forall2_length _ _ _ Hsame) in Hi.
    apply lookup_ge_None in Hi. rewrite Hi. reflexivity.
Qed.
(** *** The integration and output phases *)

Lemma solve_phase_spec (delta_t : Z) (st : machine D) :
  length (bodies (solve_phase delta_t st)) = num_bodies st /\
  (forall j, bodies (solve_phase delta_t st) !! j =
             (fun b => integrate b (of_int delta_t)) <$> bodies st !! j) /\
  calls (solve_phase delta_t st) =
    calls st ++ (Integrate_call <$> seq 0 (num_bodies st)).
Proof.
  set (P := fun (k : nat) (s : machine D) =>
    length (bodies s) = num_bodies st /\
    (forall j, bodies s !! j =
               (fun b => if decide (j < k) then integrate b (of_int delta_t) else b)
                 <$> bodies st !! j) /\
    calls s = calls st ++ (Integrate_call <$> seq 0 k)).
  assert (Hinv : P (num_bodies st) (solve_phase delta_t st)).
  { unfold solve_phase. apply for_range_inv; unfold P.
    - split; [reflexivity|]. split.
      + intros j. destruct (bodies st !! j); simpl; [|reflexivity].
        destruct (decide (j < 0)); [lia | reflexivity].
      + simpl. rewrite app_nil_r. reflexivity.
    - intros i s Hi (Hlen & Hlook & Hcalls). unfold call_integrate. cbn [bodies calls].
      split; [|split].
      + rewrite length_alter. exact Hlen.
      + intros j. destruct (decide (j = i)) as [->|Hne].
        * rewrite list_lookup_alter_eq, Hlook.
          destruct (bodies st !! i); simpl; [|reflexivity].
          destruct (decide (i < i)); [lia|]. destruct (decide (i < S i)); [|lia].
          reflexivity.
        * rewrite list_lookup_alter_ne by congruence. rewrite Hlook.
          destruct (bodies st !! j); simpl; [|reflexivity].
          destruct (decide (j < i)), (decide (j < S i)); try lia; reflexivity.
      + rewrite Hcalls, seq_S, fmap_app, app_assoc. reflexivity. }
  destruct Hinv as (Hlen & Hlook & Hcalls). split; [exact Hlen|]. split; [|exact Hcalls].
  intros j. rewrite Hlook.
  destruct (bodies st !! j) as [bj|] eqn:Hbj; simpl; [|reflexivity].
  apply lookup_lt_Some in Hbj. unfold num_bodies.
  destruct (decide (j < length (bodies st))); [reflexivity | lia].
Qed.

Lemma output_phase_spec (st : machine D) :
  bodies (output_phase st) = bodies st /\
  calls (output_phase st) = calls st ++ (Output <$> seq 0 (num_bodies st)).
Proof.
  unfold output_phase.
  apply (for_range_inv (fun k s =>
    bodies s = bodies st /\ calls s = calls st ++ (Output <$> seq 0 k))).
  - split; [reflexivity|]. simpl. rewrite app_nil_r. reflexivity.
  - intros i s _ [Hb Hc]. unfold print_output. cbn [bodies calls]. split; [exact Hb|].
    rewrite Hc, seq_S, fmap_app, app_assoc. reflexivity.
Qed.

(** *** One timestep *)

Lemma timestep_body_spec (delta_t : Z) (st : machine D) :
  length (bodies (timestep_body delta_t st)) = num_bodies st /\
  (forall j, bodies (timestep_body delta_t st) !! j =
             (fun b => integrate (accumulated (bodies st) j b) (of_int delta_t))
               <$> bodies st !! j) /\
  calls (timestep_body delta_t st) = calls st ++ timestep_calls (num_bodies st).
Proof.
  unfold timestep_body, timestep_calls.
  destruct (force_phase_spec st) as (Hl1 & Hb1 & Hc1).
  destruct (solve_phase_spec delta_t (force_phase st)) as (Hl2 & Hb2 & Hc2).
  destruct (output_phase_spec (solve_phase delta_t (force_phase st))) as (Hb3 & Hc3).
  unfold num_bodies in *. rewrite Hb3, Hc3, Hc2, Hc1, Hl2, Hl1.
  split; [reflexivity|]. split.
  - intros j. rewrite Hb2, Hb1. destruct (bodies st !! j); reflexivity.
  - rewrite <- !app_assoc. reflexivity.
Qed.

Lemma simulation_loop_S (t : nat) (delta_t : Z) (st : machine D) :
  simulation_loop (Z.of_nat (S t)) delta_t st =
  timestep_body delta_t (simulation_loop (Z.of_nat t) delta_t st).
Proof. unfold simulation_loop. rewrite !Nat2Z.id, for_range_S. reflexivity. Qed.

Lemma simulation_loop_nonpos (iterations delta_t : Z) (st : machine D) :
  (iterations <= 0)%Z -> simulation_loop iterations delta_t st = st.
Proof.
  intros Hle. unfold simulation_loop.
  replace (Z.to_nat iterations) with 0 by lia. reflexivity.
Qed.

Lemma timestep_body_mass (delta_t : Z) (st : machine D) :
  m <$> bodies (timestep_body delta_t st) = m <$> bodies st.
Proof.
  destruct (timestep_body_spec delta_t st) as (_ & Hb & _).
  apply list_eq. intros j. rewrite !list_lookup_fmap, Hb.
  destruct (bodies st !! j) as [bj|]; simpl; [|reflexivity].
  destruct (accumulated_frame (bodies st) j bj) as (Hm & _).
  rewrite <- Hm. reflexivity.
Qed.

Lemma simulation_loop_mass (iterations delta_t : Z) (st : machine D) :
  m <$> bodies (simulation_loop iterations delta_t st) = m <$> bodies st.
Proof.
  unfold simulation_loop.
  apply (for_range_inv (fun _ s => m <$> bodies s = m <$> bodies st)).
  - reflexivity.
  - intros i s _ Hs. rewrite timestep_body_mass. exact Hs.
Qed.

Lemma simulation_loop_length (iterations delta_t : Z) (st : machine D) :
  num_bodies (simulation_loop iterations delta_t st) = num_bodies st.
Proof.
  unfold num_bodies.
  rewrite <- (length_fmap m), simulation_loop_mass, length_fmap. reflexivity.
Qed.

End LoopFacts.

(** ** Counting the calls of [fsum] *)

Lemma filter_fsum_calls_fsum (i : nat) (l : list nat) :
  List.filter is_fsum_call (Fsum_call i <$> l) = Fsum_call i <$> l.
Proof.
  induction l as [|j l IH]; [reflexivity|].
  rewrite fmap_cons. cbn [List.filter is_fsum_call]. rewrite IH. reflexivity.
Qed.

Lemma filter_fsum_calls_integrate (l : list nat) :
  List.filter is_fsum_call (Integrate_call <$> l) = [].
Proof.
  induction l as [|j l IH]; [reflexivity|].
  rewrite fmap_cons. cbn [List.filter is_fsum_call]. exact IH.
Qed.

Lemma filter_fsum_calls_output (l : list nat) :
  List.filter is_fsum_call (Output <$> l) = [].
Proof.
  induction l as [|j l IH]; [reflexivity|].
  rewrite fmap_cons. cbn [List.filter is_fsum_call]. exact IH.
Qed.

Lemma filter_fsum_calls_force (n k : nat) :
  List.filter is_fsum_call (force_calls n k) = force_calls n k.
Proof.
  induction k as [|k IH]; [reflexivity|].
  rewrite force_calls_S, List.filter_app, IH, filter_fsum_calls_fsum. reflexivity.
Qed.

Lemma length_force_calls (n k : nat) :
  k <= n -> length (force_calls n k) = k * (n - 1).
Proof.
  induction k as [|k IH]; intros Hk; [reflexivity|].
  rewrite force_calls_S, length_app, length_fmap, length_others, IH by lia.
  destruct (decide (k < n)); lia.
Qed.

Lemma elem_of_force_calls (n k : nat) (e : event) :
  e ∈ force_calls n k <->
  exists i j, e = Fsum_call i j /\ i < k /\ j < n /\ j <> i.
Proof.
  induction k as [|k IH].
  - split.
    + intros He. inversion He.
    + intros (i & j & _ & Hi & _). lia.
  - rewrite force_calls_S, elem_of_app, IH, list_elem_of_fmap. split.
    + intros [(i & j & -> & Hi & Hj & Hne) | (j & -> & Hj)].
      * exists i, j. repeat split; auto; lia.
      * apply elem_of_others in Hj as [Hne Hj]. exists k, j. repeat split; auto.
    + intros (i & j & -> & Hi & Hj & Hne).
      destruct (decide (i = k)) as [->|Hik].
      * right. exists j. split; [reflexivity|]. apply elem_of_others. auto.
      * left. exists i, j. repeat split; auto; lia.
Qed.

Lemma NoDup_force_calls (n k : nat) : NoDup (force_calls n k).
Proof.
  induction k as [|k IH]; [constructor|].
  rewrite force_calls_S. apply NoDup_app. split; [exact IH|]. split.
  - intros e He Hin. apply elem_of_force_calls in He as (i & j & -> & Hi & _).
    apply list_elem_of_fmap in Hin as (j' & Heq & _). inversion Heq. lia.
  - apply NoDup_fmap_2.
    + intros j j' Heq. inversion Heq. reflexivity.
    + unfold others. apply NoDup_filter, NoDup_seq.
Qed.

Lemma count_fsum_calls_timestep (n : nat) :
  count_fsum_calls (timestep_calls n) = n * (n - 1).
Proof.
  unfold count_fsum_calls, timestep_calls.
  rewrite !List.filter_app, filter_fsum_calls_force, filter_fsum_calls_integrate,
    filter_fsum_calls_output, !app_nil_r.
  apply length_force_calls. lia.
Qed.

Lemma timestep_fsum_calls (n i j : nat) :
  Fsum_call i j ∈ timestep_calls n <-> i < n /\ j < n /\ i <> j.
Proof.
  unfold timestep_calls. rewrite !elem_of_app, elem_of_force_calls.
  split.
  - intros [(i' & j' & Heq & Hi & Hj & Hne) | [Hin | Hin]].
    + injection Heq as -> ->. repeat split; auto.
    + apply list_elem_of_fmap in Hin as (k & Heq & _). discriminate Heq.
    + apply list_elem_of_fmap in Hin as (k & Heq & _). discriminate Heq.
  - intros (Hi & Hj & Hne). left. exists i, j. repeat split; auto.
Qed.

Lemma NoDup_timestep_fsum_calls (n : nat) :
  NoDup (List.filter is_fsum_call (timestep_calls n)).
Proof.
  unfold timestep_calls.
  rewrite !List.filter_app, filter_fsum_calls_force, filter_fsum_calls_integrate,
    filter_fsum_calls_output, !app_nil_r.
  apply NoDup_force_calls.
Qed.

(** ** Small populations *)

Section SmallPopulations.

Context {D : Type} `{Double D}.


Lemma single_body_step (delta_t : Z) (b : body D) (tr : list event) :
  bodies (timestep_body delta_t (Machine [b] tr)) =
  [integrate (zero_force b) (of_int delta_t)].
Proof. reflexivity. Qed.

Lemma two_body_force (ba bb : body D) (tr : list event) :
  bodies (force_phase (Machine [ba; bb] tr)) =
  [fsum (zero_force ba) bb; fsum (zero_force bb) ba].
Proof. reflexivity. Qed.

Lemma two_body_step (delta_t : Z) (ba bb : body D) (tr : list event) :
  bodies (timestep_body delta_t (Machine [ba; bb] tr)) =
  [integrate (fsum (zero_force ba) bb) (of_int delta_t);
   integrate (fsum (zero_force bb) ba) (of_int delta_t)].
Proof. reflexivity. Qed.

End SmallPopulations.

(** ** Facts of binary64 arithmetic *)

Lemma b64_eqb_finite (s1 s2 : bool) (m1 m2 : positive) (e1 e2 : Z) :
  B64.eqb (S754_finite s1 m1 e1) (S754_finite s2 m2 e2) = true ->
  s1 = s2 /\ m1 = m2 /\ e1 = e2.
Proof.
  unfold B64.eqb, SFeqb, SFcompare.
  destruct s1, s2; try discriminate;
    destruct (Z.compare e1 e2) eqn:He; try discriminate;
    destruct (Pos.compare_cont Eq m1 m2) eqn:Hm; try discriminate;
    intros _; apply Z.compare_eq in He; apply Pos.compare_eq in Hm; auto.
Qed.

(** The difference of two equal doubles is a zero, or NaN when they are
    infinite or NaN. *)
Lemma b64_sub_equal (a b : B64.t) :
  B64.same_coordinate a b -> B64.zero_or_nan (B64.sub a b).
Proof.
  intros [->|Heq].
  - destruct b as [s|s| |s mx ex]; unfold B64.sub, SFsub.
    + destruct s; exact I.
    + destruct s; exact I.
    + exact I.
    + cbv zeta. rewrite Z.sub_diag. exact I.
  - destruct a as [s1|s1| |s1 m1 e1], b as [s2|s2| |s2 m2 e2];
      try (destruct s1; discriminate Heq); try (destruct s2; discriminate Heq);
      try discriminate Heq.
    + destruct s1, s2; exact I.
    + destruct s1, s2; try discriminate Heq; exact I.
    + apply b64_eqb_finite in Heq as (-> & -> & ->).
      unfold B64.sub, SFsub. cbv zeta. rewrite Z.sub_diag. exact I.
Qed.

Lemma b64_add_nan_r (a : B64.t) : B64.add a B64.nan = B64.nan.
Proof. destruct a; reflexivity. Qed.

Lemma b64_mul_nan_r (a : B64.t) : B64.mul a B64.nan = B64.nan.
Proof. destruct a; reflexivity. Qed.

Lemma b64_div_nan_l (a : B64.t) : B64.div B64.nan a = B64.nan.
Proof. reflexivity. Qed.

(** The separation of two bodies on the same point is a zero or NaN, and so
    is its cube; whatever the numerator, the quotient is an infinity or NaN,
    and its product with a zero or NaN displacement is NaN. *)
Lemma b64_coincident_force (num xv yv : B64.t) :
  B64.zero_or_nan xv -> B64.zero_or_nan yv ->
  let d := B64.sqrt (B64.add (B64.mul xv xv) (B64.mul yv yv)) in
  let fs := B64.div num (B64.mul (B64.mul d d) d) in
  B64.mul fs xv = B64.nan /\ B64.mul fs yv = B64.nan.
Proof.
  intros Hx Hy.
  destruct xv as [sx|sx| |sx mx ex]; try contradiction;
    destruct yv as [sy|sy| |sy my ey]; try contradiction;
    try destruct sx; try destruct sy;
    destruct num as [s|s| |s mn en]; try destruct s;
    split; reflexivity.
Qed.

Lemma b64_fsum_coincident (computed affecting : body B64.t) :
  B64.same_coordinate (x affecting) (x computed) ->
  B64.same_coordinate (y affecting) (y computed) ->
  f (fsum computed affecting) = B64.nan /\ g (fsum computed affecting) = B64.nan.
Proof.
  intros Hx Hy. rewrite fsum_unfold. unfold fscal, bodyd, xvec, yvec.
  cbn [f g m x y dadd dsub dmul ddiv dsqrt binary64].
  destruct (b64_coincident_force
              (B64.mul (B64.mul C (m computed)) (m affecting))
              (B64.sub (x affecting) (x computed))
              (B64.sub (y affecting) (y computed))
              (b64_sub_equal _ _ Hx) (b64_sub_equal _ _ Hy)) as [Hf Hg].
  cbv zeta in Hf, Hg. rewrite Hf, Hg, !b64_add_nan_r. split; reflexivity.
Qed.

Lemma b64_integrate_nan_force (computed : body B64.t) (dt : B64.t) :
  f computed = B64.nan -> g computed = B64.nan ->
  v (integrate computed dt) = B64.nan /\ w (integrate computed dt) = B64.nan /\
  x (integrate computed dt) = B64.nan /\ y (integrate computed dt) = B64.nan.
Proof.
  intros Hf Hg. unfold integrate.
  cbn [f g m x y v w dadd dsub dmul ddiv dsqrt binary64].
  rewrite Hf, Hg, !b64_mul_nan_r, !b64_div_nan_l, !b64_add_nan_r, !b64_mul_nan_r,
    !b64_add_nan_r.
  repeat split; reflexivity.
Qed.

(** *** The sign of what [fsum] adds *)



















(** *** Integers survive the conversion to double and back *)

Lemma digits2_pos_bound (p : positive) (n : Z) :
  (0 <= n)%Z -> (Zpos p < 2 ^ n)%Z -> (Zpos (digits2_pos p) <= n)%Z.
Proof.
  revert n. induction p as [q IH|q IH|]; intros n Hn Hp.
  - assert (Hn1 : (1 <= n)%Z).
    { destruct (Z.eq_dec n 0%Z) as [->|]; [simpl in Hp; lia | lia]. }
    replace n with (Z.succ (n - 1)) in Hp by lia.
    rewrite Z.pow_succ_r in Hp by lia.
    specialize (IH (n - 1)%Z ltac:(lia) ltac:(lia)). simpl. lia.
  - assert (Hn1 : (1 <= n)%Z).
    { destruct (Z.eq_dec n 0%Z) as [->|]; [simpl in Hp; lia | lia]. }
    replace n with (Z.succ (n - 1)) in Hp by lia.
    rewrite Z.pow_succ_r in Hp by lia.
    specialize (IH (n - 1)%Z ltac:(lia) ltac:(lia)). simpl. lia.
  - destruct (Z.eq_dec n 0%Z) as [->|]; [simpl in Hp; lia | simpl; lia].
Qed.

Lemma digits2_pos_iter_xO (p k : positive) :
  digits2_pos (Pos.iter xO p k) = (digits2_pos p + k)%positive.
Proof.
  induction k as [|k IH] using Pos.peano_ind.
  - simpl. lia.
  - rewrite Pos.iter_succ. simpl. rewrite IH. lia.
Qed.

Lemma shiftr_iter_xO (p k : positive) :
  Z.shiftr (Zpos (Pos.iter xO p k)) (Zpos k) = Zpos p.
Proof.
  rewrite Z.shiftr_div_pow2 by lia.
  assert (Hm : Zpos (Pos.iter xO p k) = (Zpos p * 2 ^ Zpos k)%Z).
  { induction k as [|k IH] using Pos.peano_ind.
    - simpl. lia.
    - rewrite Pos.iter_succ, Pos2Z.inj_xO, IH, Pos2Z.inj_succ, Z.pow_succ_r by lia.
      ring. }
  rewrite Hm. apply Z.div_mul. apply Z.pow_nonzero; lia.
Qed.

(** A mantissa of 53 bits with an exponent in range is not rounded. *)
Lemma b64_round_canonical (s : bool) (mz : positive) (ez : Z) :
  Zpos (digits2_pos mz) = 53%Z -> (-1074 <= ez <= 971)%Z ->
  binary_round_aux B64.prec B64.emax s (Zpos mz) ez loc_Exact = S754_finite s mz ez.
Proof.
  intros Hd He.
  unfold binary_round_aux, shr_fexp, fexp, emin, B64.prec, B64.emax.
  cbn [Zdigits2 shr_record_of_loc]. rewrite Hd.
  replace (Z.max (53 + ez - 53) (3 - 1024 - 53) - ez)%Z with 0%Z by lia.
  cbn [shr shr_m loc_of_shr_record round_nearest_even Zdigits2 shr_record_of_loc].
  rewrite Hd.
  replace (Z.max (53 + ez - 53) (3 - 1024 - 53) - ez)%Z with 0%Z by lia.
  cbn [shr shr_m].
  destruct (Z.leb_spec ez (1024 - 53)); [reflexivity | lia].
Qed.

Lemma b64_of_pos (s : bool) (p : positive) :
  (Zpos p < 2 ^ 53)%Z ->
  exists mz ez,
    binary_round B64.prec B64.emax s p 0 = S754_finite s mz ez /\
    B64.to_Z (S754_finite s mz ez) = Some (if s then Zneg p else Zpos p).
Proof.
  intros Hp.
  pose proof (digits2_pos_bound p 53 ltac:(lia) Hp) as Hd.
  unfold binary_round, shl_align, fexp, emin, B64.prec, B64.emax.
  replace (Z.max (Zpos (digits2_pos p) + 0 - 53) (3 - 1024 - 53) - 0)%Z
    with (Zpos (digits2_pos p) - 53)%Z by lia.
  replace (Z.max (Zpos (digits2_pos p) + 0 - 53) (3 - 1024 - 53))%Z
    with (Zpos (digits2_pos p) - 53)%Z by lia.
  destruct (Zpos (digits2_pos p) - 53)%Z as [|k|k] eqn:Hk; [| lia |].
  - exists p, 0%Z. split.
    + apply b64_round_canonical; lia.
    + simpl. destruct s; reflexivity.
  - exists (Pos.iter xO p k), (Zneg k). split.
    + apply b64_round_canonical; [|lia].
      rewrite digits2_pos_iter_xO. lia.
    + unfold B64.to_Z. rewrite shiftr_iter_xO. destruct s; reflexivity.
Qed.

Lemma b64_int_roundtrip (z : Z) :
  (- 2 ^ 53 < z < 2 ^ 53)%Z -> B64.to_Z (B64.of_Z z) = Some z.
Proof.
  intros Hz. unfold B64.of_Z, binary_normalize. destruct z as [|p|p].
  - reflexivity.
  - destruct (b64_of_pos false p ltac:(lia)) as (mz & ez & -> & ->). reflexivity.
  - destruct (b64_of_pos true p ltac:(lia)) as (mz & ez & -> & ->). reflexivity.
Qed.

(** The conversion of an [int] is a zero or a finite double. *)
Lemma b64_of_Z_finite (z : Z) :
  (- 2 ^ 53 < z < 2 ^ 53)%Z -> B64.is_finite (B64.of_Z z) = true.
Proof.
  intros Hz. unfold B64.of_Z, binary_normalize. destruct z as [|p|p].
  - reflexivity.
  - destruct (b64_of_pos false p ltac:(lia)) as (mz & ez & -> & _). reflexivity.
  - destruct (b64_of_pos true p ltac:(lia)) as (mz & ez & -> & _). reflexivity.
Qed.

(** ** Facts of exact arithmetic *)

Section ExactFacts.

Open Scope R_scope.

Ltac exact_ops :=
  unfold fscal, bodyd, xvec, yvec, zero_force, C;
  cbn [dadd dsub dmul ddiv dsqrt dzero dconst_C of_int exact m x y v w f g].

Lemma body_eq (a b : body R) :
  m a = m b -> x a = x b -> y a = y b -> v a = v b -> w a = w b ->
  f a = f b -> g a = g b -> a = b.
Proof. destruct a, b. simpl. congruence. Qed.





Lemma sqrt_10_squared : sqrt ((10 - 0) * (10 - 0) + (0 - 0) * (0 - 0)) = 10.
Proof.
  replace ((10 - 0) * (10 - 0) + (0 - 0) * (0 - 0)) with (10 * 10) by ring.
  apply sqrt_square. lra.
Qed.

Lemma sqrt_10_squared_opp : sqrt ((0 - 10) * (0 - 10) + (0 - 0) * (0 - 0)) = 10.
Proof.
  replace ((0 - 10) * (0 - 10) + (0 - 0) * (0 - 0)) with (10 * 10) by ring.
  apply sqrt_square. lra.
Qed.

Lemma exact_force_on_first :
  fsum (zero_force (Body 1 0 0 0 0 0 0)) (Body 1 10 0 0 0 0 0) =
  Body 1 0 0 0 0 (101 / 10000) 0.
Proof.
  rewrite fsum_unfold. exact_ops. rewrite sqrt_10_squared.
  apply body_eq; cbn [m x y v w f g]; field.
Qed.

Lemma exact_force_on_second :
  fsum (zero_force (Body 1 10 0 0 0 0 0)) (Body 1 0 0 0 0 0 0) =
  Body 1 10 0 0 0 (- (101 / 10000)) 0.
Proof.
  rewrite fsum_unfold. exact_ops. rewrite sqrt_10_squared_opp.
  apply body_eq; cbn [m x y v w f g]; field.
Qed.

Lemma exact_two_body_force :
  bodies (force_phase (two_body (D := R))) =
  [Body 1 0 0 0 0 (101 / 10000) 0; Body 1 10 0 0 0 (- (101 / 10000)) 0].
Proof.
  unfold two_body. rewrite two_body_force. cbn [of_int dzero exact].
  rewrite exact_force_on_first, exact_force_on_second. reflexivity.
Qed.

Lemma exact_two_body_step :
  bodies (simulation_loop 1 1 (two_body (D := R))) =
  [Body 1 (101 / 10000) 0 (101 / 10000) 0 (101 / 10000) 0;
   Body 1 (10 - 101 / 10000) 0 (- (101 / 10000)) 0 (- (101 / 10000)) 0].
Proof.
  change (simulation_loop 1 1 (two_body (D := R)))
    with (timestep_body 1 (two_body (D := R))).
  unfold two_body. rewrite two_body_step. cbn [of_int dzero exact].
  rewrite exact_force_on_first, exact_force_on_second, !integrate_unfold.
  exact_ops.
  apply (f_equal2 cons); [|apply (f_equal2 cons); [|reflexivity]];
    apply body_eq; cbn [m x y v w f g]; field.
Qed.

End ExactFacts.

(** ** Facts of the argument handling *)

Section CliFacts.

Import Cli.
Open Scope Z_scope.

Lemma digit_cases (d : Z) :
  is_digit d ->
  d = 0 \/ d = 1 \/ d = 2 \/ d = 3 \/ d = 4 \/ d = 5 \/ d = 6 \/ d = 7 \/ d = 8 \/ d = 9.
Proof. unfold is_digit. lia. Qed.

Ltac each_digit d Hd :=
  destruct (digit_cases d Hd) as [->|[->|[->|[->|[->|[->|[->|[->|[->| ->]]]]]]]]].

Lemma digit_of_digit_char (d : Z) : is_digit d -> digit_of (digit_char d) = Some d.
Proof. intros Hd. each_digit d Hd; reflexivity. Qed.

Lemma length_digits_string (ds : list Z) :
  String.length (digits_string ds) = length ds.
Proof. induction ds as [|d ds IH]; simpl; [reflexivity | rewrite IH; reflexivity]. Qed.

Lemma length_string_app (s1 s2 : string) :
  String.length (s1 +:+ s2) = (String.length s1 + String.length s2)%nat.
Proof. induction s1 as [|c s1 IH]; simpl; [reflexivity | rewrite IH; reflexivity]. Qed.

Lemma digits_string_cons (d : Z) (ds : list Z) :
  digits_string (d :: ds) = String (digit_char d) (digits_string ds).
Proof. reflexivity. Qed.

Lemma string_app_cons (c : ascii) (s1 s2 : string) :
  String c s1 +:+ s2 = String c (s1 +:+ s2).
Proof. reflexivity. Qed.

Lemma read_digits_cons (c : ascii) (s : string) (acc : Z) :
  read_digits (String c s) acc =
  match digit_of c with
  | Some d => let '(z, k) := read_digits s (10 * acc + d) in (z, S k)
  | None => (acc, 0%nat)
  end.
Proof. reflexivity. Qed.

Lemma read_digits_digits (ds : list Z) (rest : string) (acc : Z) :
  Forall is_digit ds -> no_leading_digit rest ->
  read_digits (digits_string ds +:+ rest) acc =
  (foldl (fun a d => 10 * a + d) acc ds, length ds).
Proof.
  intros Hds Hrest. revert acc. induction Hds as [|d ds Hd Hds IH]; intros acc.
  - simpl. destruct rest as [|c rest]; [reflexivity|].
    simpl in Hrest. simpl. rewrite Hrest. reflexivity.
  - rewrite digits_string_cons, string_app_cons, read_digits_cons.
    rewrite (digit_of_digit_char d Hd), IH. reflexivity.
Qed.

Lemma foldl_decimal_nonneg (ds : list Z) (acc : Z) :
  Forall is_digit ds -> 0 <= acc -> 0 <= foldl (fun a d => 10 * a + d) acc ds.
Proof.
  intros Hds. revert acc. induction Hds as [|d ds Hd Hds IH]; intros acc Hacc; simpl.
  - exact Hacc.
  - apply IH. unfold is_digit in Hd. lia.
Qed.

(** [stoi] on a string that starts with a digit: no white space, no sign. *)
Lemma stoi_leading_digit (d : Z) (s : string) :
  is_digit d ->
  stoi (String (digit_char d) s) =
  let '(magnitude, ndigits) := read_digits (String (digit_char d) s) 0 in
  if (ndigits =? 0)%nat then Invalid_argument
  else if (magnitude <? INT_MIN) || (INT_MAX <? magnitude) then Out_of_range
       else Stoi_ok magnitude ndigits.
Proof. intros Hd. each_digit d Hd; reflexivity. Qed.

Lemma stoi_digits (ds : list Z) (rest : string) :
  ds <> [] -> Forall is_digit ds -> no_leading_digit rest ->
  decimal_value ds <= INT_MAX ->
  stoi (digits_string ds +:+ rest) = Stoi_ok (decimal_value ds) (length ds).
Proof.
  intros Hne Hds Hrest Hmax.
  pose proof (read_digits_digits ds rest 0 Hds Hrest) as Hread.
  pose proof (foldl_decimal_nonneg ds 0 Hds ltac:(lia)) as Hpos.
  destruct ds as [|d ds]; [congruence|].
  rewrite digits_string_cons, string_app_cons in *.
  rewrite stoi_leading_digit by (inversion Hds; assumption).
  rewrite Hread. fold (decimal_value (d :: ds)) in *.
  cbn [length Nat.eqb].
  destruct (Z.ltb_spec (decimal_value (d :: ds)) INT_MIN) as [Hlt|_];
    [unfold INT_MIN in Hlt; lia|].
  destruct (Z.ltb_spec INT_MAX (decimal_value (d :: ds))) as [Hlt|_]; [lia|].
  reflexivity.
Qed.

(** *** The loop of [input_verify_stoi] *)

Lemma verify_arg_length (vec : list string) (st : verify_state) (i : nat) :
  length (verified (verify_arg vec st i)) = length (verified st).
Proof.
  unfold verify_arg. destruct (vec !! i) as [arg|]; [|reflexivity].
  destruct (stoi arg); cbn [verified]; [apply length_insert | reflexivity | reflexivity].
Qed.

Lemma verify_loop_length (vec : list string) (l : list nat) (st : verify_state) :
  length (verified (foldl (verify_arg vec) st l)) = length (verified st).
Proof.
  revert st. induction l as [|i l IH]; intros st; simpl; [reflexivity|].
  rewrite IH. apply verify_arg_length.
Qed.

(** A slot whose argument [stoi] rejects is not written by any iteration. *)
Lemma verify_arg_rejected (vec : list string) (st : verify_state) (i k : nat)
    (arg : string) (slot : option Z) :
  vec !! k = Some arg ->
  (stoi arg = Invalid_argument \/ stoi arg = Out_of_range) ->
  verified st !! k = Some slot ->
  verified (verify_arg vec st i) !! k = Some slot.
Proof.
  intros Hk Hbad Hslot. unfold verify_arg.
  destruct (vec !! i) as [argi|] eqn:Hi; [|exact Hslot].
  destruct (stoi argi) as [value pos| |] eqn:Hstoi; cbn [verified]; try exact Hslot.
  destruct (decide (i = k)) as [->|Hne].
  - rewrite Hk in Hi. injection Hi as ->. destruct Hbad; congruence.
  - rewrite list_lookup_insert_ne by exact Hne. exact Hslot.
Qed.

Lemma verify_loop_rejected (vec : list string) (l : list nat) (st : verify_state)
    (k : nat) (arg : string) (slot : option Z) :
  vec !! k = Some arg ->
  (stoi arg = Invalid_argument \/ stoi arg = Out_of_range) ->
  verified st !! k = Some slot ->
  verified (foldl (verify_arg vec) st l) !! k = Some slot.
Proof.
  intros Hk Hbad. revert st. induction l as [|i l IH]; intros st Hslot; simpl.
  - exact Hslot.
  - apply IH. eapply verify_arg_rejected; eassumption.
Qed.

(** What is written to [std::cerr] stays there. *)
Lemma verify_arg_cerr_mono (vec : list string) (st : verify_state) (i : nat)
    (msg : string) :
  msg ∈ cerr st -> msg ∈ cerr (verify_arg vec st i).
Proof.
  intros Hin. unfold verify_arg. destruct (vec !! i) as [arg|]; [|exact Hin].
  destruct (stoi arg) as [value pos| |]; cbn [cerr];
    [destruct (pos <? String.length arg)%nat|..];
    try exact Hin; apply elem_of_app; left; exact Hin.
Qed.

Lemma verify_loop_cerr_mono (vec : list string) (l : list nat) (st : verify_state)
    (msg : string) :
  msg ∈ cerr st -> msg ∈ cerr (foldl (verify_arg vec) st l).
Proof.
  revert st. induction l as [|i l IH]; intros st Hin; simpl; [exact Hin|].
  apply IH, verify_arg_cerr_mono, Hin.
Qed.

Lemma verify_loop_reports (vec : list string) (l : list nat) (st : verify_state)
    (k : nat) (arg : string) :
  vec !! k = Some arg -> k ∈ l ->
  (stoi arg = Invalid_argument ->
   ("Invalid number: " +:+ arg +:+ newline) ∈ cerr (foldl (verify_arg vec) st l)) /\
  (stoi arg = Out_of_range ->
   ("Number out of range: " +:+ arg +:+ newline) ∈ cerr (foldl (verify_arg vec) st l)).
Proof.
  intros Hk. revert st. induction l as [|i l IH]; intros st Hin.
  - inversion Hin.
  - simpl. apply elem_of_cons in Hin as [->|Hin]; [|apply IH, Hin].
    split; intros Hstoi; apply verify_loop_cerr_mono;
      unfold verify_arg; rewrite Hk, Hstoi; cbn [cerr];
      apply elem_of_app; right; apply list_elem_of_here.
Qed.

(** The value of parameter [k] when [argv] has an argument at [k]. *)
Lemma main_config_supplied (argv : list string) (k : nat) (arg : string) :
  argv !! k = Some arg -> (1 <= k <= 3)%nat ->
  parameter (main_config argv).1 k =
  (if (k =? 3)%nat
   then (B64.of_Z <$> read_input (verified (parsed argv)) k) ≫= B64.to_Z
   else read_input (verified (parsed argv)) k) /\
  (main_config argv).2 = cerr (parsed argv).
Proof.
  intros Hk Hrange. apply lookup_lt_Some in Hk.
  unfold main_config, parameter, parsed. cbn [fst snd num_bodies iterations delta_t].
  split; [|reflexivity].
  assert (Hc : (k = 1 \/ k = 2 \/ k = 3)%nat) by lia.
  destruct Hc as [->|[->| ->]]; cbn [Nat.eqb].
  - destruct (Nat.ltb_spec 1 (length argv)); [reflexivity | lia].
  - destruct (Nat.ltb_spec 2 (length argv)); [reflexivity | lia].
  - destruct (Nat.ltb_spec 3 (length argv)); [reflexivity | lia].
Qed.

Lemma main_config_rejected (argv : list string) (k : nat) (arg : string) :
  argv !! k = Some arg -> (1 <= k <= 3)%nat ->
  (stoi arg = Invalid_argument \/ stoi arg = Out_of_range) ->
  parameter (main_config argv).1 k = None /\
  (stoi arg = Invalid_argument ->
   ("Invalid number: " +:+ arg +:+ newline) ∈ (main_config argv).2) /\
  (stoi arg = Out_of_range ->
   ("Number out of range: " +:+ arg +:+ newline) ∈ (main_config argv).2).
Proof.
  intros Hk Hrange Hbad.
  destruct (main_config_supplied argv k arg Hk Hrange) as [Hpar Herr].
  pose proof (lookup_lt_Some _ _ _ Hk) as Hlen.
  assert (Hslot : read_input (verified (parsed argv)) k = None).
  { unfold read_input, parsed, input_verify_stoi.
    rewrite (verify_loop_rejected argv _ _ k arg None Hk Hbad); [reflexivity|].
    cbn [verified]. apply lookup_replicate_2. exact Hlen. }
  rewrite Hpar, Herr, Hslot. split; [destruct (k =? 3)%nat; reflexivity|].
  unfold parsed, input_verify_stoi.
  apply (verify_loop_reports argv _ _ k arg Hk). rewrite elem_of_seq. lia.
Qed.

Lemma verify_arg_accepted (vec : list string) (st : verify_state) (i : nat)
    (arg : string) (z : Z) (pos : nat) :
  vec !! i = Some arg -> stoi arg = Stoi_ok z pos ->
  verify_arg vec st i =
  Verify_state (<[i := Some z]> (verified st))
    (if (pos <? String.length arg)%nat
     then cerr st ++ ["Trailing characters after number: " +:+ arg +:+ newline]
     else cerr st).
Proof. intros Hi Hstoi. unfold verify_arg. rewrite Hi, Hstoi. reflexivity. Qed.

(** The last argument of four is accepted with characters left over. *)
Lemma main_config_trailing (prog a1 a2 arg : string) (z : Z) (pos : nat) :
  stoi arg = Stoi_ok z pos -> (pos < String.length arg)%nat ->
  - 2 ^ 53 < z < 2 ^ 53 ->
  delta_t (main_config [prog; a1; a2; arg]).1 = Some z /\
  last (main_config [prog; a1; a2; arg]).2 =
    Some ("Trailing characters after number: " +:+ arg +:+ newline).
Proof.
  intros Hstoi Hpos Hz.
  destruct (main_config_supplied [prog; a1; a2; arg] 3 arg eq_refl ltac:(lia))
    as [Hpar Herr].
  cbn [parameter Nat.eqb] in Hpar. rewrite Hpar, Herr.
  unfold parsed, input_verify_stoi.
  change (seq 1 (length [prog; a1; a2; arg] - 1)) with ([1; 2] ++ [3])%nat.
  rewrite foldl_snoc.
  set (st := foldl (verify_arg [prog; a1; a2; arg]) _ [1; 2]%nat).
  assert (Hlen : length (verified st) = 4%nat).
  { unfold st. rewrite verify_loop_length. reflexivity. }
  rewrite (verify_arg_accepted [prog; a1; a2; arg] st 3 arg z pos eq_refl Hstoi).
  cbn [verified cerr].
  destruct (Nat.ltb_spec pos (String.length arg)) as [_|Hge]; [|lia].
  split.
  - unfold read_input. rewrite list_lookup_insert_eq by lia.
    cbn [fmap option_fmap option_map mbind option_bind].
    apply b64_int_roundtrip. exact Hz.
  - apply last_snoc.
Qed.

End CliFacts.

(** ** Further facts of [stoi] *)

Section StoiFacts.

Import Cli.
Open Scope Z_scope.

Lemma skip_space_length (s : string) :
  String.length s = (fst (skip_space s) + String.length (snd (skip_space s)))%nat.
Proof.
  induction s as [|c s IH]; [reflexivity|].
  cbn [skip_space]. destruct (isspace c).
  - destruct (skip_space s) as [k r]. cbn [fst snd String.length] in *. lia.
  - reflexivity.
Qed.

Lemma read_digits_length (s : string) (acc : Z) :
  (snd (read_digits s acc) <= String.length s)%nat.
Proof.
  revert acc. induction s as [|c s IH]; intros acc; [simpl; lia|].
  rewrite read_digits_cons. destruct (digit_of c) as [d|]; [|simpl; lia].
  specialize (IH (10 * acc + d)). destruct (read_digits s (10 * acc + d)) as [z k].
  cbn [snd String.length] in *. lia.
Qed.

(** The three shapes of [stoi] by its first character. *)
Lemma stoi_space (c : ascii) (s : string) :
  isspace c = true -> stoi (String c s) = shift_pos 1 (stoi s).
Proof.
  intros Hc. unfold stoi. cbn [skip_space]. rewrite Hc.
  destruct (skip_space s) as [k r].
  destruct (match r with
            | String "-"%char r' => (true, 1%nat, r')
            | String "+"%char r' => (false, 1%nat, r')
            | _ => (false, 0%nat, r)
            end) as [[negative nsign] s2].
  destruct (read_digits s2 0) as [magnitude ndigits].
  destruct (ndigits =? 0)%nat; [reflexivity|].
  destruct ((_ <? INT_MIN) || (INT_MAX <? _)); reflexivity.
Qed.

Lemma stoi_minus (s : string) :
  stoi (String "-"%char s) =
  let '(magnitude, ndigits) := read_digits s 0 in
  if (ndigits =? 0)%nat then Invalid_argument
  else if (- magnitude <? INT_MIN) || (INT_MAX <? - magnitude) then Out_of_range
       else Stoi_ok (- magnitude) (1 + ndigits).
Proof. reflexivity. Qed.

Lemma stoi_plus (s : string) :
  stoi (String "+"%char s) =
  let '(magnitude, ndigits) := read_digits s 0 in
  if (ndigits =? 0)%nat then Invalid_argument
  else if (magnitude <? INT_MIN) || (INT_MAX <? magnitude) then Out_of_range
       else Stoi_ok magnitude (1 + ndigits).
Proof. reflexivity. Qed.

Lemma stoi_all_space (ws s : string) :
  all_space ws -> stoi (ws +:+ s) = shift_pos (String.length ws) (stoi s).
Proof.
  induction ws as [|c ws IH]; intros Hws.
  - change ("" +:+ s) with s. destruct (stoi s); reflexivity.
  - destruct Hws as [Hc Hws]. rewrite string_app_cons, stoi_space, IH by assumption.
    destruct (stoi s); reflexivity.
Qed.

Lemma stoi_strip_sign (arg : string) :
  stoi arg =
  let '(nspace, s1) := skip_space arg in
  let '(negative, nsign, s2) := strip_sign s1 in
  let '(magnitude, ndigits) := read_digits s2 0 in
  if (ndigits =? 0)%nat then Invalid_argument
  else
    let value := if negative then - magnitude else magnitude in
    if (value <? INT_MIN) || (INT_MAX <? value) then Out_of_range
    else Stoi_ok value (nspace + nsign + ndigits)%nat.
Proof. reflexivity. Qed.

Lemma strip_sign_length (s : string) :
  String.length s = (snd (fst (strip_sign s)) + String.length (snd (strip_sign s)))%nat.
Proof.
  destruct s as [|c r]; [reflexivity|].
  destruct c as [[] [] [] [] [] [] [] []]; reflexivity.
Qed.

(** A suffix of a string without digits has no digit. *)
Lemma skip_space_no_digit (s : string) : no_digit s -> no_digit (snd (skip_space s)).
Proof.
  induction s as [|c s IH]; intros Hs; [exact I|].
  cbn [skip_space]. destruct (isspace c).
  - destruct Hs as [_ Hs]. specialize (IH Hs).
    destruct (skip_space s) as [k r]. exact IH.
  - exact Hs.
Qed.

Lemma strip_sign_no_digit (s : string) : no_digit s -> no_digit (snd (strip_sign s)).
Proof.
  destruct s as [|c r]; intros Hs; [exact I|].
  destruct c as [[] [] [] [] [] [] [] []]; try exact Hs; destruct Hs as [_ Hs]; exact Hs.
Qed.

Lemma read_digits_no_digit (s : string) (acc : Z) :
  no_digit s -> read_digits s acc = (acc, 0%nat).
Proof.
  destruct s as [|c s]; intros Hs; [reflexivity|].
  destruct Hs as [Hc _]. rewrite read_digits_cons, Hc. reflexivity.
Qed.

Lemma stoi_no_digit (arg : string) : no_digit arg -> stoi arg = Invalid_argument.
Proof.
  intros Harg. rewrite stoi_strip_sign.
  pose proof (skip_space_no_digit arg Harg) as H1.
  destruct (skip_space arg) as [nspace s1]. cbn [snd] in H1.
  pose proof (strip_sign_no_digit s1 H1) as H2.
  destruct (strip_sign s1) as [[negative nsign] s2]. cbn [snd] in H2.
  rewrite (read_digits_no_digit s2 0 H2). reflexivity.
Qed.

Lemma stoi_ok_bounds (arg : string) (value : Z) (pos : nat) :
  stoi arg = Stoi_ok value pos ->
  INT_MIN <= value <= INT_MAX /\ (1 <= pos <= String.length arg)%nat.
Proof.
  rewrite stoi_strip_sign.
  pose proof (skip_space_length arg) as H1.
  destruct (skip_space arg) as [nspace s1]. cbn [fst snd] in H1.
  pose proof (strip_sign_length s1) as H2.
  destruct (strip_sign s1) as [[negative nsign] s2]. cbn [fst snd] in H2.
  pose proof (read_digits_length s2 0) as H3.
  destruct (read_digits s2 0) as [magnitude ndigits]. cbn [snd] in H3.
  destruct (Nat.eqb_spec ndigits 0) as [|Hnd]; [intros Heq; discriminate Heq|].
  cbv zeta. set (v := if negative then - magnitude else magnitude).
  destruct (Z.ltb_spec v INT_MIN) as [|Hlo]; [intros Heq; discriminate Heq|].
  destruct (Z.ltb_spec INT_MAX v) as [|Hhi]; [intros Heq; discriminate Heq|].
  cbn [orb]. intros Heq. injection Heq as <- <-. split; lia.
Qed.

(** The general shape of an accepted or out-of-range argument: white space,
    an optional sign, digits, and something that does not go on with a
    digit. *)
Lemma stoi_numeral (ws rest : string) (sg : sign) (ds : list Z) :
  all_space ws -> ds <> [] -> Forall is_digit ds -> no_leading_digit rest ->
  stoi (ws +:+ sign_string sg +:+ digits_string ds +:+ rest) =
  if (signed sg (decimal_value ds) <? INT_MIN) || (INT_MAX <? signed sg (decimal_value ds))
  then Out_of_range
  else Stoi_ok (signed sg (decimal_value ds))
               (String.length ws + String.length (sign_string sg) + length ds).
Proof.
  intros Hws Hne Hds Hrest. rewrite stoi_all_space by exact Hws.
  pose proof (read_digits_digits ds rest 0 Hds Hrest) as Hread.
  fold (decimal_value ds) in Hread.
  assert (Hlen : (length ds =? 0)%nat = false).
  { destruct ds; [congruence | reflexivity]. }
  destruct sg; cbn [sign_string signed String.length].
  - change ("" +:+ digits_string ds +:+ rest) with (digits_string ds +:+ rest).
    destruct ds as [|d ds']; [congruence|].
    rewrite digits_string_cons, string_app_cons in *.
    rewrite stoi_leading_digit by (inversion Hds; assumption).
    rewrite Hread, Hlen.
    destruct ((_ <? INT_MIN) || (INT_MAX <? _)); cbn [shift_pos]; [reflexivity|].
    f_equal. lia.
  - change ("+" +:+ digits_string ds +:+ rest)
      with (String "+"%char (digits_string ds +:+ rest)).
    rewrite stoi_plus, Hread, Hlen.
    destruct ((_ <? INT_MIN) || (INT_MAX <? _)); cbn [shift_pos]; [reflexivity|].
    f_equal. lia.
  - change ("-" +:+ digits_string ds +:+ rest)
      with (String "-"%char (digits_string ds +:+ rest)).
    rewrite stoi_minus, Hread, Hlen.
    destruct ((_ <? INT_MIN) || (INT_MAX <? _)); cbn [shift_pos]; [reflexivity|].
    f_equal. lia.
Qed.

End StoiFacts.

(** ** The argument loop as a map *)

Section VerifyFacts.

Import Cli.
Open Scope Z_scope.

Lemma verify_arg_eq (vec : list string) (st : verify_state) (i : nat) (arg : string) :
  vec !! i = Some arg ->
  verify_arg vec st i =
  Verify_state
    (match slot_of arg with
     | Some value => <[i := Some value]> (verified st)
     | None => verified st
     end)
    (cerr st ++ diagnostic arg).
Proof.
  intros Hi. unfold verify_arg, slot_of, diagnostic. rewrite Hi.
  destruct (stoi arg) as [value pos| |]; cbn [verified cerr].
  - destruct (pos <? String.length arg)%nat; [reflexivity|].
    rewrite app_nil_r. reflexivity.
  - destruct st; reflexivity.
  - destruct st; reflexivity.
Qed.

(** After the iterations for the indices 1 to [k]. *)
Lemma verify_loop_prefix (argv : list string) (k : nat) :
  (k <= length argv - 1)%nat ->
  let st := foldl (verify_arg argv)
                  (Verify_state (replicate (length argv) None) []) (seq 1 k) in
  length (verified st) = length argv /\
  (forall i, verified st !! i =
             (fun arg => if decide (1 <= i <= k)%nat then slot_of arg else None)
               <$> argv !! i) /\
  cerr st = flat_map diagnostic (take k (drop 1 argv)).
Proof.
  induction k as [|k IH]; intros Hk.
  - cbn [seq foldl verified cerr]. split; [apply length_replicate|]. split.
    + intros i. destruct (argv !! i) as [arg|] eqn:Hi; cbn [fmap option_fmap option_map].
      * rewrite lookup_replicate_2 by (eapply lookup_lt_Some; eassumption).
        destruct (decide (1 <= i <= 0)%nat); [lia | reflexivity].
      * apply lookup_ge_None. rewrite length_replicate.
        apply lookup_ge_None in Hi. exact Hi.
    + reflexivity.
  - specialize (IH ltac:(lia)). cbv zeta in IH. destruct IH as (Hlen & Hlook & Hcerr).
    cbv zeta. rewrite seq_S, foldl_snoc.
    set (st := foldl (verify_arg argv) _ (seq 1 k)) in *.
    destruct (lookup_lt_is_Some_2 argv (1 + k)) as [arg Harg]; [lia|].
    rewrite (verify_arg_eq argv st (1 + k) arg Harg). cbn [verified cerr].
    split; [|split].
    + destruct (slot_of arg); [rewrite length_insert|]; exact Hlen.
    + intros i. destruct (decide (i = 1 + k)%nat) as [->|Hne].
      * rewrite Harg. cbn [fmap option_fmap option_map].
        destruct (decide (1 <= 1 + k <= S k)%nat); [|lia].
        destruct (slot_of arg) as [value|] eqn:Hslot.
        -- apply list_lookup_insert_eq. lia.
        -- rewrite Hlook, Harg. cbn [fmap option_fmap option_map].
           destruct (decide (1 <= 1 + k <= k)%nat); [lia | reflexivity].
      * assert (Hold : verified st !! i =
                  (fun arg0 => if decide (1 <= i <= S k)%nat then slot_of arg0 else None)
                    <$> argv !! i).
        { rewrite Hlook. destruct (argv !! i); [|reflexivity].
          cbn [fmap option_fmap option_map].
          destruct (decide (1 <= i <= k)%nat), (decide (1 <= i <= S k)%nat);
            try lia; reflexivity. }
        destruct (slot_of arg); [rewrite list_lookup_insert_ne by lia|]; exact Hold.
    + rewrite Hcerr.
      assert (Hd : drop 1 argv !! k = Some arg) by (rewrite lookup_drop; exact Harg).
      rewrite (take_S_r _ _ _ Hd), flat_map_app. cbn [flat_map].
      rewrite app_nil_r. reflexivity.
Qed.

Lemma parsed_verified (argv : list string) :
  verified (parsed argv) =
  imap (fun k arg => if decide (k = 0%nat) then None else slot_of arg) argv.
Proof.
  destruct (verify_loop_prefix argv (length argv - 1) ltac:(lia)) as (_ & Hlook & _).
  apply list_eq. intros i. unfold parsed, input_verify_stoi.
  rewrite Hlook, list_lookup_imap.
  destruct (argv !! i) as [arg|] eqn:Hi; [|reflexivity].
  apply lookup_lt_Some in Hi. cbn [fmap option_fmap option_map].
  destruct (decide (1 <= i <= length argv - 1)%nat), (decide (i = 0%nat));
    try lia; reflexivity.
Qed.

Lemma parsed_cerr (argv : list string) :
  cerr (parsed argv) = flat_map diagnostic (drop 1 argv).
Proof.
  destruct (verify_loop_prefix argv (length argv - 1) ltac:(lia)) as (_ & _ & Hcerr).
  unfold parsed, input_verify_stoi. rewrite Hcerr.
  rewrite take_ge by (rewrite length_drop; lia). reflexivity.
Qed.

Lemma read_input_parsed (argv : list string) (k : nat) :
  (1 <= k)%nat ->
  read_input (verified (parsed argv)) k =
  match argv !! k with
  | Some arg => slot_of arg
  | None => None
  end.
Proof.
  intros Hk. unfold read_input. rewrite parsed_verified, list_lookup_imap.
  destruct (argv !! k) as [arg|]; [|reflexivity].
  cbn [fmap option_fmap option_map]. destruct (decide (k = 0%nat)); [lia | reflexivity].
Qed.

Lemma slot_of_roundtrip (arg : string) :
  (B64.of_Z <$> slot_of arg) ≫= B64.to_Z = slot_of arg.
Proof.
  unfold slot_of. destruct (stoi arg) as [value pos| |] eqn:Hstoi; try reflexivity.
  cbn [fmap option_fmap option_map mbind option_bind].
  apply b64_int_roundtrip.
  destruct (stoi_ok_bounds arg value pos Hstoi) as [Hv _].
  unfold INT_MIN, INT_MAX in Hv. lia.
Qed.

(** Every parameter of the run: the default without an argument, else what
    [stoi] returns, else nothing. *)
Lemma main_config_parameter (argv : list string) (k : nat) :
  (1 <= k <= 3)%nat ->
  parameter (main_config argv).1 k =
  match argv !! k with
  | Some arg => slot_of arg
  | None => Some (default_parameter k)
  end.
Proof.
  intros Hk. destruct (argv !! k) as [arg|] eqn:Harg.
  - destruct (main_config_supplied argv k arg Harg Hk) as [Hpar _]. rewrite Hpar.
    rewrite (read_input_parsed argv k ltac:(lia)), Harg.
    destruct (k =? 3)%nat; [apply slot_of_roundtrip | reflexivity].
  - apply lookup_ge_None in Harg.
    unfold main_config, parameter. cbn [fst num_bodies iterations delta_t].
    assert (Hc : (k = 1 \/ k = 2 \/ k = 3)%nat) by lia.
    destruct Hc as [->|[->| ->]].
    + destruct (Nat.ltb_spec 1 (length argv)); [lia | reflexivity].
    + destruct (Nat.ltb_spec 2 (length argv)); [lia | reflexivity].
    + destruct (Nat.ltb_spec 3 (length argv)); [lia | reflexivity].
Qed.

Lemma main_config_cerr (argv : list string) :
  (main_config argv).2 = flat_map diagnostic (drop 1 argv).
Proof. rewrite <- parsed_cerr. reflexivity. Qed.

Lemma config_eta (cfg : config) :
  cfg = Config (parameter cfg 1) (parameter cfg 2) (parameter cfg 3).
Proof. destruct cfg. reflexivity. Qed.

Lemma diagnostic_length (arg : string) : (length (diagnostic arg) <= 1)%nat.
Proof.
  unfold diagnostic. destruct (stoi arg) as [value pos| |]; cbn [length]; try lia.
  destruct (pos <? String.length arg)%nat; cbn [length]; lia.
Qed.

Lemma diagnostic_nil (arg : string) :
  diagnostic arg = [] <-> exists value, stoi arg = Stoi_ok value (String.length arg).
Proof.
  unfold diagnostic. split.
  - destruct (stoi arg) as [value pos| |] eqn:Hstoi; try discriminate.
    destruct (Nat.ltb_spec pos (String.length arg)) as [|Hge]; [discriminate|].
    intros _. destruct (stoi_ok_bounds arg value pos Hstoi) as [_ Hpos].
    exists value. f_equal. lia.
  - intros [value ->]. rewrite Nat.ltb_irrefl. reflexivity.
Qed.

End VerifyFacts.

(** ** Whole runs *)

Lemma for_range_const_add {S : Type} (a b : nat) (g : S -> S) (st : S) :
  for_range (a + b) (fun _ => g) st = for_range b (fun _ => g) (for_range a (fun _ => g) st).
Proof.
  induction b as [|b IH].
  - rewrite Nat.add_0_r. reflexivity.
  - rewrite Nat.add_succ_r, !for_range_S, IH. reflexivity.
Qed.

Lemma filter_calls_force (p : event -> bool) (n k : nat) :
  (forall i j, p (Fsum_call i j) = false) ->
  List.filter p (force_calls n k) = [].
Proof.
  intros Hp. induction k as [|k IH]; [reflexivity|].
  rewrite force_calls_S, List.filter_app, IH. cbn [app].
  induction (others k n) as [|j l IHl]; [reflexivity|].
  rewrite fmap_cons. cbn [List.filter]. rewrite Hp. exact IHl.
Qed.

Lemma filter_calls_fmap_all (p : event -> bool) (c : nat -> event) (l : list nat) (b : bool) :
  (forall i, p (c i) = b) ->
  List.filter p (c <$> l) = if b then c <$> l else [].
Proof.
  intros Hp. induction l as [|i l IH]; [destruct b; reflexivity|].
  rewrite fmap_cons. cbn [List.filter]. rewrite Hp, IH. destruct b; reflexivity.
Qed.

Lemma count_calls_timestep (n : nat) :
  length (List.filter is_integrate_call (timestep_calls n)) = n /\
  length (List.filter is_output (timestep_calls n)) = n.
Proof.
  unfold timestep_calls. rewrite !List.filter_app.
  rewrite !filter_calls_force by reflexivity.
  rewrite (filter_calls_fmap_all is_integrate_call Integrate_call _ true) by reflexivity.
  rewrite (filter_calls_fmap_all is_integrate_call Output _ false) by reflexivity.
  rewrite (filter_calls_fmap_all is_output Integrate_call _ false) by reflexivity.
  rewrite (filter_calls_fmap_all is_output Output _ true) by reflexivity.
  cbn [app]. rewrite !app_nil_r, !length_fmap, !length_seq. split; reflexivity.
Qed.

Lemma count_run_calls (n t : nat) :
  count_fsum_calls (run_calls n t) = t * (n * (n - 1)) /\
  length (List.filter is_integrate_call (run_calls n t)) = t * n /\
  length (List.filter is_output (run_calls n t)) = t * n.
Proof.
  induction t as [|t (IH1 & IH2 & IH3)]; [repeat split|].
  destruct (count_calls_timestep n) as [Hi Ho].
  pose proof (count_fsum_calls_timestep n) as Hf.
  unfold count_fsum_calls in *. cbn [run_calls].
  rewrite !List.filter_app, !length_app, IH1, IH2, IH3, Hi, Ho, Hf. repeat split; lia.
Qed.

Section RunFacts.
Context {D : Type} `{Double D}.

Lemma simulation_loop_calls (iterations delta_t : Z) (st : machine D) :
  calls (simulation_loop iterations delta_t st) =
  calls st ++ run_calls (num_bodies st) (Z.to_nat iterations).
Proof.
  unfold simulation_loop.
  apply (for_range_inv (fun k s =>
    num_bodies s = num_bodies st /\ calls s = calls st ++ run_calls (num_bodies st) k)).
  - split; [reflexivity|]. cbn [run_calls]. rewrite app_nil_r. reflexivity.
  - intros i s _ [Hn Hc].
    destruct (timestep_body_spec delta_t s) as (Hlen & _ & Hcalls).
    split.
    + unfold num_bodies at 1. rewrite Hlen. exact Hn.
    + rewrite Hcalls, Hc, Hn. cbn [run_calls]. rewrite app_assoc. reflexivity.
Qed.

Lemma simulation_loop_add (a b delta_t : Z) (st : machine D) :
  (0 <= a)%Z -> (0 <= b)%Z ->
  simulation_loop (a + b) delta_t st =
  simulation_loop b delta_t (simulation_loop a delta_t st).
Proof.
  intros Ha Hb. unfold simulation_loop.
  rewrite Z2Nat.inj_add by assumption. apply for_range_const_add.
Qed.

(** One timestep as a map over the array it starts from. *)
Lemma timestep_body_imap (delta_t : Z) (st : machine D) :
  bodies (timestep_body delta_t st) = imap (advanced delta_t (bodies st)) (bodies st).
Proof.
  destruct (timestep_body_spec delta_t st) as (_ & Hlook & _).
  apply list_eq. intros i. rewrite Hlook, list_lookup_imap.
  destruct (bodies st !! i) as [bi|]; [|reflexivity].
  cbn [fmap option_fmap option_map]. unfold advanced, accumulated.
  rewrite foldl_fsum_at_delete. reflexivity.
Qed.

End RunFacts.

(** ** The events of a timestep are the calls made *)

Section ReplayFacts.
Context {D : Type} `{Double D}.

Lemma zero_force_kinematics (b : body D) : same_kinematics b (zero_force b).
Proof. repeat split. Qed.

(** The inner force loop makes the calls of its events. *)
Lemma force_inner_perform (delta_t : Z) (i k : nat) (st : machine D) :
  bodies (for_range k (force_inner i) st)
  = foldl (perform delta_t) (bodies st) (Fsum_call i <$> others i k).
Proof.
  induction k as [|k IH]; [reflexivity|].
  rewrite for_range_S, others_S, fmap_app, foldl_app, <- IH.
  generalize (for_range k (force_inner i) st). intros s.
  unfold force_inner. destruct (decide (k = i)) as [->|Hne]; [reflexivity|].
  cbn [fmap list_fmap foldl perform]. unfold call_fsum.
  destruct (bodies s !! k); reflexivity.
Qed.

(** Calls of [fsum] for body [i] leave the other bodies alone. *)
Lemma perform_fsum_calls_other (delta_t : Z) (i j : nat) (l : list nat)
    (bs : list (body D)) :
  j <> i -> foldl (perform delta_t) bs (Fsum_call i <$> l) !! j = bs !! j.
Proof.
  intros Hne. revert bs. induction l as [|k l IH]; intros bs; [reflexivity|].
  rewrite fmap_cons. cbn [foldl]. rewrite IH. cbn [perform].
  destruct (bs !! k); [|reflexivity].
  apply list_lookup_alter_ne. congruence.
Qed.

(** On an array whose forces are cleared, the force phase makes the calls
    of its events and nothing else. *)
Lemma force_phase_perform_cleared (delta_t : Z) (bs : list (body D)) (tr : list event) :
  bodies (force_phase (Machine (zero_force <$> bs) tr))
  = foldl (perform delta_t) (zero_force <$> bs) (force_calls (length bs) (length bs)).
Proof.
  unfold force_phase, num_bodies. cbn [bodies]. rewrite length_fmap.
  set (n := length bs).
  apply (for_range_inv (fun k s =>
    bodies s = foldl (perform delta_t) (zero_force <$> bs) (force_calls n k) /\
    forall j, k <= j -> bodies s !! j = (zero_force <$> bs) !! j)).
  - split; [reflexivity|]. intros j _. reflexivity.
  - intros i s _ [Hs Hrest]. unfold force_outer.
    assert (Hreset : bodies (reset_force i s) = bodies s).
    { unfold reset_force. cbn [bodies]. apply list_eq. intros j.
      destruct (decide (j = i)) as [->|Hne].
      - rewrite list_lookup_alter_eq, (Hrest i) by lia.
        rewrite list_lookup_fmap. destruct (bs !! i); reflexivity.
      - apply list_lookup_alter_ne. congruence. }
    rewrite (force_inner_perform delta_t), Hreset. split.
    + rewrite force_calls_S, foldl_app, Hs. reflexivity.
    + intros j Hj. rewrite perform_fsum_calls_other by lia. apply Hrest. lia.
Qed.

Lemma force_phase_perform (delta_t : Z) (st : machine D) :
  bodies (force_phase st)
  = foldl (perform delta_t) (zero_force <$> bodies st)
          (force_calls (num_bodies st) (num_bodies st)).
Proof.
  rewrite (force_phase_ignores_old_force st (Machine (zero_force <$> bodies st) (calls st))).
  - apply force_phase_perform_cleared.
  - cbn [bodies]. apply Forall2_fmap_r, Forall_Forall2_diag, Forall_forall.
    intros b _. apply zero_force_kinematics.
Qed.

Lemma solve_loop_perform (delta_t : Z) (k : nat) (st : machine D) :
  bodies (for_range k (call_integrate delta_t) st)
  = foldl (perform delta_t) (bodies st) (Integrate_call <$> seq 0 k).
Proof.
  induction k as [|k IH]; [reflexivity|].
  rewrite for_range_S, seq_S, fmap_app, foldl_app, <- IH. reflexivity.
Qed.

Lemma perform_outputs (delta_t : Z) (l : list nat) (bs : list (body D)) :
  foldl (perform delta_t) bs (Output <$> l) = bs.
Proof. induction l as [|i l IH]; [reflexivity|]. rewrite fmap_cons. exact IH. Qed.

(** One timestep is the replay of its events. *)
Lemma timestep_body_replay (delta_t : Z) (st : machine D) :
  bodies (timestep_body delta_t st) = replay delta_t (num_bodies st) (bodies st).
Proof.
  unfold replay, timestep_calls, timestep_body.
  rewrite !foldl_app, perform_outputs, <- force_phase_perform.
  destruct (output_phase_spec (solve_phase delta_t (force_phase st))) as [-> _].
  unfold solve_phase.
  destruct (force_phase_spec st) as (Hlen & _).
  unfold num_bodies at 1. rewrite Hlen.
  apply solve_loop_perform.
Qed.

Lemma simulation_loop_replay (iterations delta_t : Z) (st : machine D) :
  bodies (simulation_loop iterations delta_t st)
  = Nat.iter (Z.to_nat iterations) (replay delta_t (num_bodies st)) (bodies st).
Proof.
  unfold simulation_loop.
  apply (for_range_inv (fun k s =>
    num_bodies s = num_bodies st /\
    bodies s = Nat.iter k (replay delta_t (num_bodies st)) (bodies st))).
  - split; reflexivity.
  - intros i s _ [Hn Hs].
    destruct (timestep_body_spec delta_t s) as (Hlen & _).
    split.
    + unfold num_bodies at 1. rewrite Hlen. exact Hn.
    + rewrite timestep_body_replay, Hn, Hs. reflexivity.
Qed.

(** The force phase as a map over the array it starts from. *)
Lemma force_phase_imap (st : machine D) :
  bodies (force_phase st)
  = imap (fun i bi => foldl fsum (zero_force bi) (delete i (bodies st))) (bodies st).
Proof.
  destruct (force_phase_spec st) as (_ & Hlook & _).
  apply list_eq. intros i. rewrite Hlook, list_lookup_imap.
  destruct (bodies st !! i) as [bi|]; [|reflexivity].
  cbn [fmap option_fmap option_map]. unfold accumulated.
  rewrite foldl_fsum_at_delete. reflexivity.
Qed.

End ReplayFacts.

(** ** NaN in binary64 *)

Lemma b64_sub_nan_r (a : B64.t) : B64.sub a B64.nan = B64.nan.
Proof. destruct a; reflexivity. Qed.

Lemma b64_separation_nan (xv yv : B64.t) :
  xv = B64.nan \/ yv = B64.nan ->
  B64.sqrt (B64.add (B64.mul xv xv) (B64.mul yv yv)) = B64.nan.
Proof.
  intros [-> | ->].
  - reflexivity.
  - rewrite b64_mul_nan_r, b64_add_nan_r. reflexivity.
Qed.

Lemma b64_div_by_nan (a : B64.t) : B64.div a B64.nan = B64.nan.
Proof. destruct a; reflexivity. Qed.

(** A body whose position is NaN, on either side of [fsum], makes the force
    NaN. *)
Lemma b64_fsum_nan_position (computed affecting : body B64.t) :
  nan_position computed \/ nan_position affecting ->
  nan_force (fsum computed affecting).
Proof.
  intros Hnan. unfold nan_force. rewrite fsum_unfold. unfold fscal, bodyd, xvec, yvec.
  cbn [f g m x y dadd dsub dmul ddiv dsqrt binary64].
  assert (Hv : B64.sub (x affecting) (x computed) = B64.nan
               \/ B64.sub (y affecting) (y computed) = B64.nan).
  { destruct Hnan as [[Hx|Hy]|[Hx|Hy]].
    - left. rewrite Hx. apply b64_sub_nan_r.
    - right. rewrite Hy. apply b64_sub_nan_r.
    - left. rewrite Hx. reflexivity.
    - right. rewrite Hy. reflexivity. }
  rewrite (b64_separation_nan _ _ Hv).
  change (B64.mul (B64.mul B64.nan B64.nan) B64.nan) with B64.nan.
  rewrite b64_div_by_nan.
  change (B64.mul B64.nan (B64.sub (x affecting) (x computed))) with B64.nan.
  change (B64.mul B64.nan (B64.sub (y affecting) (y computed))) with B64.nan.
  rewrite !b64_add_nan_r. split; reflexivity.
Qed.

(** A NaN force stays NaN whatever is added to it. *)
Lemma b64_fsum_nan_sticky (computed affecting : body B64.t) :
  nan_force computed -> nan_force (fsum computed affecting).
Proof.
  intros [Hf Hg]. unfold nan_force. rewrite fsum_unfold. cbn [f g dadd binary64].
  rewrite Hf, Hg. split; reflexivity.
Qed.

Lemma b64_foldl_nan_sticky (l : list (body B64.t)) (acc : body B64.t) :
  nan_force acc -> nan_force (foldl fsum acc l).
Proof.
  revert acc. induction l as [|a l IH]; intros acc Hacc; [exact Hacc|].
  cbn [foldl]. apply IH, b64_fsum_nan_sticky, Hacc.
Qed.

Lemma b64_foldl_nan_source (l : list (body B64.t)) (acc a : body B64.t) :
  a ∈ l -> nan_position a -> nan_force (foldl fsum acc l).
Proof.
  intros Hin Ha. revert acc. induction Hin as [a l|a b l Hin IH]; intros acc.
  - cbn [foldl]. apply b64_foldl_nan_sticky, b64_fsum_nan_position. right. exact Ha.
  - cbn [foldl]. apply IH. exact Ha.
Qed.

Lemma b64_foldl_nan_computed (l : list (body B64.t)) (acc : body B64.t) :
  l <> [] -> nan_position acc -> nan_force (foldl fsum acc l).
Proof.
  intros Hl Hacc. destruct l as [|a l]; [congruence|].
  cbn [foldl]. apply b64_foldl_nan_sticky, b64_fsum_nan_position. left. exact Hacc.
Qed.

Lemma b64_foldl_coincident (l : list (body B64.t)) (acc a : body B64.t) :
  a ∈ l ->
  B64.same_coordinate (x a) (x acc) -> B64.same_coordinate (y a) (y acc) ->
  nan_force (foldl fsum acc l).
Proof.
  intros Hin. revert acc. induction Hin as [a l|a b l Hin IH]; intros acc Hx Hy.
  - cbn [foldl]. apply b64_foldl_nan_sticky. exact (b64_fsum_coincident acc a Hx Hy).
  - cbn [foldl]. apply IH; assumption.
Qed.

Lemma b64_integrate_all_nan (computed : body B64.t) (dt : B64.t) :
  nan_force computed -> all_nan (integrate computed dt).
Proof.
  intros [Hf Hg].
  destruct (b64_integrate_nan_force computed dt Hf Hg) as (Hv & Hw & Hx & Hy).
  repeat split; assumption.
Qed.

Lemma elem_of_delete_other {A : Type} (l : list A) (i j : nat) (a : A) :
  l !! j = Some a -> i <> j -> a ∈ delete i l.
Proof.
  intros Hj Hne. apply list_elem_of_lookup.
  destruct (decide (j < i)) as [Hlt|Hge].
  - exists j. rewrite list_lookup_delete_lt by exact Hlt. exact Hj.
  - exists (j - 1). rewrite list_lookup_delete_ge by lia.
    replace (S (j - 1)) with j by lia. exact Hj.
Qed.

(** One timestep of an array that holds a body whose position is NaN. *)
Lemma b64_timestep_contagion (delta_t : Z) (st : machine B64.t) (j : nat)
    (bj : body B64.t) :
  bodies st !! j = Some bj -> nan_position bj -> 2 <= num_bodies st ->
  Forall all_nan (bodies (timestep_body delta_t st)).
Proof.
  intros Hj Hnan Hn. rewrite timestep_body_imap.
  apply Forall_lookup. intros i b' Hi.
  rewrite list_lookup_imap in Hi.
  destruct (bodies st !! i) as [bi|] eqn:Hbi; [|discriminate Hi].
  cbn [fmap option_fmap option_map] in Hi. injection Hi as <-.
  unfold advanced. apply b64_integrate_all_nan.
  destruct (decide (i = j)) as [->|Hne].
  - rewrite Hj in Hbi. injection Hbi as <-.
    apply b64_foldl_nan_computed; [|exact Hnan].
    intros Hnil. apply (f_equal length) in Hnil.
    rewrite length_delete in Hnil by (rewrite Hj; eexists; reflexivity).
    unfold num_bodies in Hn. cbn [length] in Hnil. lia.
  - apply (b64_foldl_nan_source _ _ bj); [|exact Hnan].
    apply (elem_of_delete_other _ i j); assumption.
Qed.

Lemma all_nan_position (b : body B64.t) : all_nan b -> nan_position b.
Proof. intros (Hx & _). left. exact Hx. Qed.

(** Once every body is NaN, it stays so. *)
Lemma b64_run_contagion (t : nat) (delta_t : Z) (st : machine B64.t) (j : nat)
    (bj : body B64.t) :
  bodies st !! j = Some bj -> nan_position bj -> 2 <= num_bodies st ->
  Forall all_nan (bodies (simulation_loop (Z.of_nat (S t)) delta_t st)).
Proof.
  intros Hj Hnan Hn. induction t as [|t IH].
  - change (simulation_loop (Z.of_nat 1) delta_t st) with (timestep_body delta_t st).
    eapply b64_timestep_contagion; eassumption.
  - rewrite simulation_loop_S.
    set (s := simulation_loop (Z.of_nat (S t)) delta_t st) in *.
    assert (Hlen : num_bodies s = num_bodies st) by apply simulation_loop_length.
    destruct (lookup_lt_is_Some_2 (bodies s) 0) as [b0 Hb0];
      [unfold num_bodies in *; lia|].
    apply (b64_timestep_contagion delta_t s 0 b0 Hb0); [|lia].
    apply all_nan_position. exact (proj1 (Forall_lookup _ _) IH 0 b0 Hb0).
Qed.

(** ** The plot buffers *)

Section PlotFacts.
Context {D : Type} `{Double D}.

Lemma solve_loop_spec (delta_t : Z) (pm : plot_machine D) (tr : list event) :
  length (xcoords pm) = length (plot_bodies pm) ->
  length (ycoords pm) = length (plot_bodies pm) ->
  plot_bodies (solve_loop delta_t pm)
    = bodies (solve_phase delta_t (Machine (plot_bodies pm) tr)) /\
  xcoords (solve_loop delta_t pm) = (fun b => Some (x b)) <$> plot_bodies (solve_loop delta_t pm) /\
  ycoords (solve_loop delta_t pm) = (fun b => Some (y b)) <$> plot_bodies (solve_loop delta_t pm).
Proof.
  intros Hxl Hyl. unfold solve_loop.
  set (n := length (plot_bodies pm)) in *.
  set (step := fun b : body D => integrate b (of_int delta_t)).
  assert (Hinv : forall k, k <= n ->
    let s := for_range k (solve_iteration delta_t) pm in
    length (plot_bodies s) = n /\ length (xcoords s) = n /\ length (ycoords s) = n /\
    (forall j, plot_bodies s !! j =
               (fun b => if decide (j < k) then step b else b) <$> plot_bodies pm !! j) /\
    (forall j, j < k -> xcoords s !! j = (fun b => Some (x b)) <$> plot_bodies s !! j) /\
    (forall j, j < k -> ycoords s !! j = (fun b => Some (y b)) <$> plot_bodies s !! j)).
  { induction k as [|k IH]; intros Hk.
    - cbv zeta. rewrite for_range_0. repeat split; try assumption; try reflexivity.
      + intros j. destruct (plot_bodies pm !! j); [|reflexivity].
        cbn [fmap option_fmap option_map]. destruct (decide (j < 0)); [lia | reflexivity].
      + intros j Hj. lia.
      + intros j Hj. lia.
    - specialize (IH ltac:(lia)). cbv zeta in IH.
      destruct IH as (Hb & Hx & Hy & Hlook & Hxs & Hys).
      cbv zeta. rewrite for_range_S.
      set (s := for_range k (solve_iteration delta_t) pm) in *.
      unfold solve_iteration. fold step.
      destruct (lookup_lt_is_Some_2 (plot_bodies s) k) as [bk Hbk]; [lia|].
      rewrite list_lookup_alter_eq, Hbk. cbn [fmap option_fmap option_map].
      cbn [plot_bodies xcoords ycoords].
      rewrite !length_alter, !length_insert.
      split; [exact Hb|]. split; [exact Hx|]. split; [exact Hy|]. split; [|split].
      + intros j. destruct (decide (j = k)) as [->|Hne].
        * rewrite list_lookup_alter_eq, Hlook.
          destruct (plot_bodies pm !! k); [|reflexivity].
          cbn [fmap option_fmap option_map].
          destruct (decide (k < k)), (decide (k < S k)); try lia. reflexivity.
        * rewrite list_lookup_alter_ne by congruence. rewrite Hlook.
          destruct (plot_bodies pm !! j); [|reflexivity].
          cbn [fmap option_fmap option_map].
          destruct (decide (j < k)), (decide (j < S k)); try lia; reflexivity.
      + intros j Hj. destruct (decide (j = k)) as [->|Hne].
        * rewrite list_lookup_insert_eq by lia.
          rewrite list_lookup_alter_eq, Hbk. reflexivity.
        * rewrite list_lookup_insert_ne by congruence.
          rewrite list_lookup_alter_ne by congruence. apply Hxs. lia.
      + intros j Hj. destruct (decide (j = k)) as [->|Hne].
        * rewrite list_lookup_insert_eq by lia.
          rewrite list_lookup_alter_eq, Hbk. reflexivity.
        * rewrite list_lookup_insert_ne by congruence.
          rewrite list_lookup_alter_ne by congruence. apply Hys. lia. }
  specialize (Hinv n ltac:(lia)). cbv zeta in Hinv.
  set (s := for_range n (solve_iteration delta_t) pm) in *.
  destruct Hinv as (Hb & Hx & Hy & Hlook & Hxs & Hys).
  destruct (solve_phase_spec delta_t (Machine (plot_bodies pm) tr)) as (_ & Hsolve & _).
  cbn [bodies] in Hsolve.
  split; [|split].
  - apply list_eq. intros j. rewrite Hlook, Hsolve.
    destruct (plot_bodies pm !! j) as [b|] eqn:Hj; [|reflexivity].
    apply lookup_lt_Some in Hj. cbn [fmap option_fmap option_map].
    destruct (decide (j < n)); [reflexivity | lia].
  - apply list_eq. intros j. destruct (decide (j < n)) as [Hj|Hj].
    + rewrite Hxs by exact Hj. rewrite list_lookup_fmap. reflexivity.
    + rewrite (proj2 (lookup_ge_None (xcoords s) j)) by lia.
      symmetry. apply lookup_ge_None. rewrite length_fmap. lia.
  - apply list_eq. intros j. destruct (decide (j < n)) as [Hj|Hj].
    + rewrite Hys by exact Hj. rewrite list_lookup_fmap. reflexivity.
    + rewrite (proj2 (lookup_ge_None (ycoords s) j)) by lia.
      symmetry. apply lookup_ge_None. rewrite length_fmap. lia.
Qed.

End PlotFacts.

(** ** Further facts of runs *)

(** Two bodies on the same point: after one timestep one of them is NaN,
    after two all are. *)
Lemma b64_coincident_run (t : nat) (delta_t : Z) (st : machine B64.t) (i j : nat)
    (bi bj : body B64.t) :
  bodies st !! i = Some bi -> bodies st !! j = Some bj -> i <> j ->
  B64.same_coordinate (x bj) (x bi) -> B64.same_coordinate (y bj) (y bi) ->
  Forall all_nan (bodies (simulation_loop (Z.of_nat (S (S t))) delta_t st)).
Proof.
  intros Hi Hj Hne Hx Hy.
  replace (Z.of_nat (S (S t))) with (1 + Z.of_nat (S t))%Z by lia.
  rewrite simulation_loop_add by lia.
  change (simulation_loop 1 delta_t st) with (timestep_body delta_t st).
  assert (Hn : 2 <= num_bodies st).
  { apply lookup_lt_Some in Hi. apply lookup_lt_Some in Hj. unfold num_bodies. lia. }
  destruct (timestep_body_spec delta_t st) as (Hlen & _ & _).
  apply (b64_run_contagion t delta_t _ i (advanced delta_t (bodies st) i bi)).
  - rewrite timestep_body_imap, list_lookup_imap, Hi. reflexivity.
  - apply all_nan_position. unfold advanced. apply b64_integrate_all_nan.
    apply (b64_foldl_coincident _ _ bj); [|exact Hx|exact Hy].
    apply (elem_of_delete_other _ i j); assumption.
  - unfold num_bodies at 1. rewrite Hlen. exact Hn.
Qed.

Lemma b64_plain_without_force (dt mass vel : B64.t) :
  B64.is_finite dt = true -> B64.nonzero_finite mass -> b64_plain vel ->
  B64.add vel (B64.div (B64.mul dt B64.zero) mass) = vel.
Proof.
  intros Hdt Hm Hv.
  destruct dt as [sd|sd| |sd md ed]; try discriminate Hdt;
    destruct mass as [sm|sm| |sm mm em]; try contradiction;
    destruct vel as [[]|sv| |sv mv ev]; try contradiction;
    try reflexivity; destruct sd, sm; reflexivity.
Qed.

Lemma b64_isolated_step (b : body B64.t) (delta_t : Z) (tr : list event) :
  (- 2 ^ 53 < delta_t < 2 ^ 53)%Z ->
  B64.nonzero_finite (m b) -> b64_plain (v b) -> b64_plain (w b) ->
  bodies (timestep_body delta_t (Machine [b] tr)) =
  [Body (m b)
        (B64.add (x b) (B64.mul (B64.of_Z delta_t) (v b)))
        (B64.add (y b) (B64.mul (B64.of_Z delta_t) (w b)))
        (v b) (w b) B64.zero B64.zero].
Proof.
  intros Hdt Hm Hv Hw.
  pose proof (b64_of_Z_finite delta_t Hdt) as Hfin.
  rewrite single_body_step, integrate_unfold. unfold zero_force.
  cbn [m x y v w f g dadd dmul ddiv dzero of_int binary64].
  rewrite !(b64_plain_without_force _ _ _ Hfin Hm Hv).
  rewrite !(b64_plain_without_force _ _ _ Hfin Hm Hw).
  reflexivity.
Qed.

(** A body alone in binary64: the velocity is kept bit for bit. *)
Lemma b64_isolated_run (b : body B64.t) (t : nat) (delta_t : Z) (tr : list event) :
  (- 2 ^ 53 < delta_t < 2 ^ 53)%Z ->
  B64.nonzero_finite (m b) -> b64_plain (v b) -> b64_plain (w b) ->
  bodies (simulation_loop (Z.of_nat (S t)) delta_t (Machine [b] tr)) =
  [Body (m b)
        (b64_drift (B64.of_Z delta_t) (v b) (S t) (x b))
        (b64_drift (B64.of_Z delta_t) (w b) (S t) (y b))
        (v b) (w b) B64.zero B64.zero].
Proof.
  intros Hdt Hm Hv Hw. induction t as [|t IH].
  - change (simulation_loop (Z.of_nat 1) delta_t (Machine [b] tr))
      with (timestep_body delta_t (Machine [b] tr)).
    rewrite b64_isolated_step by assumption. reflexivity.
  - rewrite simulation_loop_S.
    destruct (simulation_loop (Z.of_nat (S t)) delta_t (Machine [b] tr)) as [bs' tr'].
    cbn [bodies] in IH. subst bs'.
    rewrite b64_isolated_step by assumption. reflexivity.
Qed.


(** ** The whole of [main] *)

Lemma string_app_nil_r (s : string) : s +:+ "" = s.
Proof. induction s as [|c s IH]; [reflexivity|]. rewrite string_app_cons, IH. reflexivity. Qed.

Lemma main_config_supplied_all (argv : list string) :
  Cli.main_config argv =
  (Cli.Config (supplied argv 1) (supplied argv 2) (supplied argv 3),
   flat_map diagnostic (drop 1 argv)).
Proof.
  rewrite (surjective_pairing (Cli.main_config argv)).
  rewrite (config_eta (Cli.main_config argv).1), main_config_cerr.
  rewrite !main_config_parameter by lia. reflexivity.
Qed.

Lemma main_eq (argv : list string) (initial : list (body B64.t)) :
  Cli.main argv initial =
  (match supplied argv 1, supplied argv 2, supplied argv 3 with
   | Some n, Some it, Some dt =>
       if decide (Z.of_nat (length initial) = n)
       then Some (simulation_loop it dt (Machine initial []))
       else None
   | _, _, _ => None
   end, flat_map diagnostic (drop 1 argv)).
Proof. unfold Cli.main. rewrite main_config_supplied_all. reflexivity. Qed.

(** * Part III: properties of the program *)

(** ** The two-body scenario *)

(** C1, as stated, fails: after one step of the two-body scenario
    body 0 is not at [(0,0)] any more, neither in exact arithmetic nor in
    binary64; its abscissa is the velocity it has just acquired. *)
Lemma two_body_position_not_kept :
  x <$> bodies (simulation_loop 1 1 (two_body (D := R))) !! 0%nat <> Some 0%R /\
  x <$> bodies (simulation_loop 1 1 (two_body (D := B64.t))) !! 0%nat
    <> Some B64.zero.
Proof.
  split.
  - rewrite exact_two_body_step. cbn [lookup list_lookup fmap option_fmap option_map x].
    intros Heq. injection Heq as Heq. lra.
  - vm_compute. discriminate.
Qed.

(** C1, amended: in the two-body scenario (masses 1, at rest at [(0,0)]
    and [(10,0)], [C = 1.01], [delta_t = 1]) the force phase leaves the force
    [(0.0101, 0)] on body 0 and [(-0.0101, 0)] on body 1; after one step
    body 0 has velocity [(0.0101, 0)] and position [(0.0101, 0)], body 1
    velocity [(-0.0101, 0)] and position [(9.9899, 0)].  In binary64 the
    same fields hold the doubles [5822253598264578 * 2^-59] (one unit in
    the last place above the double nearest to 0.0101), its opposite, and
    [5623813739683565 * 2^-49]. *)
Theorem two_body_first_step :
  bodies (force_phase (two_body (D := R))) =
    [Body 1 0 0 0 0 (101 / 10000) 0;
     Body 1 10 0 0 0 (- (101 / 10000)) 0]%R /\
  bodies (simulation_loop 1 1 (two_body (D := R))) =
    [Body 1 (101 / 10000) 0 (101 / 10000) 0 (101 / 10000) 0;
     Body 1 (10 - 101 / 10000) 0 (- (101 / 10000)) 0 (- (101 / 10000)) 0]%R /\
  bodies (simulation_loop 1 1 (two_body (D := B64.t))) =
    [Body (B64.of_Z 1)
          (S754_finite false 5822253598264578 (-59)) B64.zero
          (S754_finite false 5822253598264578 (-59)) B64.zero
          (S754_finite false 5822253598264578 (-59)) B64.zero;
     Body (B64.of_Z 1)
          (S754_finite false 5623813739683565 (-49)) B64.zero
          (S754_finite true 5822253598264578 (-59)) B64.zero
          (S754_finite true 5822253598264578 (-59)) B64.zero] /\
  B64.of_decimal 101 4 = S754_finite false 5822253598264577 (-59).
Proof.
  split; [exact exact_two_body_force|].
  split; [exact exact_two_body_step|].
  split; vm_compute; reflexivity.
Qed.

(** ** The pairwise force *)




(** ** The integrator *)

(** C3: in exact arithmetic, for a body of non-zero mass [integrate]
    returns the velocity [v + dt * f / m] and the position [p + dt * v'],
    where [v'] is that new velocity: the position differs from the one the
    old velocity would give by [dt * dt * f / m], which is not zero when
    [dt] and the force are not.  The four update equations hold whatever
    the arithmetic, binary64 included, each operation being one of the
    arithmetic. *)
Theorem integrate_uses_updated_velocity (computed : body R) (dt : R) :
  m computed <> 0%R ->
  let after := integrate computed dt in
  v after = (v computed + dt * f computed / m computed)%R /\
  w after = (w computed + dt * g computed / m computed)%R /\
  x after = (x computed + dt * v after)%R /\
  y after = (y computed + dt * w after)%R /\
  (x after - (x computed + dt * v computed) = dt * dt * f computed / m computed)%R /\
  (y after - (y computed + dt * w computed) = dt * dt * g computed / m computed)%R /\
  (dt <> 0%R -> f computed <> 0%R -> x after <> (x computed + dt * v computed)%R) /\
  (dt <> 0%R -> g computed <> 0%R -> y after <> (y computed + dt * w computed)%R) /\
  (forall (D : Type) `(Double D) (c : body D) (d : D),
     v (integrate c d) = dadd (v c) (ddiv (dmul d (f c)) (m c)) /\
     w (integrate c d) = dadd (w c) (ddiv (dmul d (g c)) (m c)) /\
     x (integrate c d) = dadd (x c) (dmul d (v (integrate c d))) /\
     y (integrate c d) = dadd (y c) (dmul d (w (integrate c d)))).
Proof.
  intros Hm after.
  destruct (integrate_eqns computed dt) as (Hv & Hw & Hx & Hy).
  cbn [dadd dmul ddiv exact] in Hv, Hw, Hx, Hy. fold after in Hv, Hw, Hx, Hy.
  assert (Hdx : (x after - (x computed + dt * v computed)
                 = dt * dt * f computed / m computed)%R).
  { rewrite Hx, Hv. field. exact Hm. }
  assert (Hdy : (y after - (y computed + dt * w computed)
                 = dt * dt * g computed / m computed)%R).
  { rewrite Hy, Hw. field. exact Hm. }
  assert (Hnz : forall a : R, dt <> 0%R -> a <> 0%R ->
                (dt * dt * a / m computed)%R <> 0%R).
  { intros a Hdt Ha. unfold Rdiv.
    repeat apply Rmult_integral_contrapositive_currified; try assumption.
    apply Rinv_neq_0_compat. exact Hm. }
  do 6 (split; [assumption|]). split; [|split].
  - intros Hdt Hf Heq. apply (Hnz (f computed) Hdt Hf). rewrite <- Hdx, Heq. ring.
  - intros Hdt Hg Heq. apply (Hnz (g computed) Hdt Hg). rewrite <- Hdy, Heq. ring.
  - intros D HD c d. exact (integrate_eqns c d).
Qed.

(** The hypothesis of C3 holds for a body of mass 2 under the force
    [(4, 0)]. *)
Lemma integrate_uses_updated_velocity_witness :
  m sample_pushed <> 0%R /\
  v (integrate sample_pushed 2%R) = (3 + 2 * 4 / 2)%R /\
  x (integrate sample_pushed 2%R) = (1 + 2 * v (integrate sample_pushed 2))%R.
Proof.
  assert (Hm : m sample_pushed <> 0%R) by (cbn [m sample_pushed]; lra).
  split; [exact Hm|].
  destruct (integrate_uses_updated_velocity sample_pushed 2%R Hm)
    as (Hv & _ & Hx & _).
  split; [exact Hv | exact Hx].
Defined.

(** ** A body alone *)




(** ** The force phase *)

(** C5: whatever the arithmetic, one timestep over [n] bodies appends
    to the events exactly the list [timestep_calls n]; it holds [n * (n - 1)]
    calls of [fsum], one for each ordered pair [(i, j)] of distinct indices
    below [n] and no other, none of them twice.  The calls listed are the
    evaluations made: the array after the timestep is the one obtained by
    making the calls of the list, one after the other, on the array with
    its forces cleared; and the force phase takes every body to the result
    of [fsum] folded, from zero force, over the other [n - 1] bodies. *)
Theorem fsum_calls_per_timestep {D : Type} `{Double D} (delta_t : Z) (st : machine D) :
  calls (timestep_body delta_t st) = calls st ++ timestep_calls (num_bodies st) /\
  count_fsum_calls (timestep_calls (num_bodies st))
    = num_bodies st * (num_bodies st - 1) /\
  (forall i j, Fsum_call i j ∈ timestep_calls (num_bodies st) <->
               i < num_bodies st /\ j < num_bodies st /\ i <> j) /\
  NoDup (List.filter is_fsum_call (timestep_calls (num_bodies st))) /\
  bodies (timestep_body delta_t st)
    = foldl (perform delta_t) (zero_force <$> bodies st)
            (timestep_calls (num_bodies st)) /\
  bodies (force_phase st)
    = imap (fun i bi => foldl fsum (zero_force bi) (delete i (bodies st))) (bodies st) /\
  (forall i, i < num_bodies st -> length (delete i (bodies st)) = num_bodies st - 1).
Proof.
  destruct (timestep_body_spec delta_t st) as (_ & _ & Hcalls).
  split; [exact Hcalls|]. split; [apply count_fsum_calls_timestep|].
  split; [intros i j; apply timestep_fsum_calls|].
  split; [apply NoDup_timestep_fsum_calls|].
  split; [apply timestep_body_replay|].
  split; [apply force_phase_imap|].
  intros i Hi. apply length_delete. apply lookup_lt_is_Some_2. exact Hi.
Qed.

(** C6: whatever the arithmetic, at the start of every timestep [t] of
    a run the force phase takes body [i] from [bi] to the result of
    [fsum] folded over the other bodies in array order, starting from [bi]
    with both force components set to zero.  So its force is the sum, from
    zero, of the [n - 1] contributions of the other bodies as they are at
    that timestep, and nothing of the force [bi] held before remains: two
    arrays that differ in the forces only leave the phase equal.  The rest
    of the body is untouched. *)
Theorem force_phase_sums_from_zero {D : Type} `{Double D}
    (st0 : machine D) (delta_t : Z) (t i : nat) (bi : body D) :
  bodies (simulation_loop (Z.of_nat t) delta_t st0) !! i = Some bi ->
  let st := simulation_loop (Z.of_nat t) delta_t st0 in
  let sources := delete i (bodies st) in
  bodies (force_phase st) !! i = Some (foldl fsum (zero_force bi) sources) /\
  f (zero_force bi) = dzero /\ g (zero_force bi) = dzero /\
  f (foldl fsum (zero_force bi) sources)
    = foldl (fun s bj => dadd s (pair_force_x bi bj)) dzero sources /\
  g (foldl fsum (zero_force bi) sources)
    = foldl (fun s bj => dadd s (pair_force_y bi bj)) dzero sources /\
  length sources = num_bodies st0 - 1 /\
  same_kinematics (foldl fsum (zero_force bi) sources) bi /\
  (forall st' : machine D,
     Forall2 same_kinematics (bodies st) (bodies st') ->
     bodies (force_phase st) = bodies (force_phase st')).
Proof.
  intros Hbi st sources. fold st in Hbi.
  destruct (force_phase_spec st) as (_ & Hlook & _).
  split.
  { rewrite Hlook, Hbi. cbn [fmap option_fmap option_map]. f_equal.
    unfold accumulated. apply foldl_fsum_at_delete. }
  split; [reflexivity|]. split; [reflexivity|].
  assert (Hsrc : same_source (zero_force bi) bi) by (repeat split).
  destruct (foldl_fsum_force bi sources (zero_force bi) Hsrc) as [Hf Hg].
  split; [exact Hf|]. split; [exact Hg|]. split.
  - unfold sources. rewrite length_delete by (rewrite Hbi; eexists; reflexivity).
    fold (num_bodies st). unfold st. rewrite simulation_loop_length. reflexivity.
  - split; [|intros st'; apply force_phase_ignores_old_force].
    destruct (foldl_fsum_frame sources (zero_force bi)) as (? & ? & ? & ? & ?).
    repeat split; assumption.
Qed.

(** The hypothesis of C6 holds for body 1 of the two-body scenario after
    one timestep in binary64. *)
Lemma force_phase_sums_from_zero_witness :
  bodies (simulation_loop (Z.of_nat 1) 1 (two_body (D := B64.t))) !! 1%nat
    = Some (Body (B64.of_Z 1)
                 (S754_finite false 5623813739683565 (-49)) B64.zero
                 (S754_finite true 5822253598264578 (-59)) B64.zero
                 (S754_finite true 5822253598264578 (-59)) B64.zero) /\
  length (delete 1%nat (bodies (simulation_loop (Z.of_nat 1) 1 (two_body (D := B64.t)))))
    = num_bodies (two_body (D := B64.t)) - 1.
Proof.
  assert (Hlook :
    bodies (simulation_loop (Z.of_nat 1) 1 (two_body (D := B64.t))) !! 1%nat
    = Some (Body (B64.of_Z 1)
                 (S754_finite false 5623813739683565 (-49)) B64.zero
                 (S754_finite true 5822253598264578 (-59)) B64.zero
                 (S754_finite true 5822253598264578 (-59)) B64.zero)).
  { vm_compute. reflexivity. }
  split; [exact Hlook|].
  destruct (force_phase_sums_from_zero two_body 1 1 1 _ Hlook)
    as (_ & _ & _ & _ & _ & Hlen & _).
  exact Hlen.
Defined.

(** ** Bodies on the same point *)

(** C7, as stated, fails: for two bodies of mass 1 on the point
    [(3, 4)] the force phase leaves NaN in both force components of both
    bodies, and after one timestep their positions and velocities are NaN
    too. *)
Lemma coincident_bodies_become_nan :
  f <$> bodies (force_phase (coincident_pair (D := B64.t))) = [B64.nan; B64.nan] /\
  g <$> bodies (force_phase (coincident_pair (D := B64.t))) = [B64.nan; B64.nan] /\
  x <$> bodies (simulation_loop 1 1 (coincident_pair (D := B64.t)))
    = [B64.nan; B64.nan] /\
  v <$> bodies (simulation_loop 1 1 (coincident_pair (D := B64.t)))
    = [B64.nan; B64.nan].
Proof. repeat split; vm_compute; reflexivity. Qed.

(** C7, amended: [fsum] has no guard on the separation.  In binary64,
    whenever the affecting body has the coordinates of the computed one
    (the same doubles, or doubles that compare equal), whatever the masses
    and the force held before, both components of the force [fsum] returns
    are NaN, and [integrate] applied to the result, with any time step,
    gives a NaN velocity and a NaN position. *)
Theorem coincident_bodies_force_is_nan (computed affecting : body B64.t) (dt : B64.t) :
  B64.same_coordinate (x affecting) (x computed) ->
  B64.same_coordinate (y affecting) (y computed) ->
  f (fsum computed affecting) = B64.nan /\
  g (fsum computed affecting) = B64.nan /\
  v (integrate (fsum computed affecting) dt) = B64.nan /\
  w (integrate (fsum computed affecting) dt) = B64.nan /\
  x (integrate (fsum computed affecting) dt) = B64.nan /\
  y (integrate (fsum computed affecting) dt) = B64.nan.
Proof.
  intros Hx Hy.
  destruct (b64_fsum_coincident computed affecting Hx Hy) as [Hf Hg].
  destruct (b64_integrate_nan_force (fsum computed affecting) dt Hf Hg)
    as (Hv & Hw & Hx' & Hy').
  repeat split; assumption.
Qed.

(** The hypotheses of C7 hold for two bodies of masses 1 and 2 on the
    point [(3, 4)]. *)
Lemma coincident_bodies_force_is_nan_witness :
  B64.same_coordinate (x (heavy_at_3_4 (D := B64.t))) (x (light_at_3_4 (D := B64.t))) /\
  B64.same_coordinate (y (heavy_at_3_4 (D := B64.t))) (y (light_at_3_4 (D := B64.t))) /\
  f (fsum light_at_3_4 heavy_at_3_4) = B64.nan /\
  x (integrate (fsum light_at_3_4 heavy_at_3_4) (B64.of_Z 1)) = B64.nan.
Proof.
  assert (Hx : B64.same_coordinate (x (heavy_at_3_4 (D := B64.t)))
                                   (x (light_at_3_4 (D := B64.t)))).
  { left. reflexivity. }
  assert (Hy : B64.same_coordinate (y (heavy_at_3_4 (D := B64.t)))
                                   (y (light_at_3_4 (D := B64.t)))).
  { right. vm_compute. reflexivity. }
  split; [exact Hx|]. split; [exact Hy|].
  destruct (coincident_bodies_force_is_nan light_at_3_4 heavy_at_3_4 (B64.of_Z 1) Hx Hy)
    as (Hf & _ & _ & _ & Hpos & _).
  split; [exact Hf | exact Hpos].
Defined.

(** ** The command line *)

(** C8: evaluation of the argument handling at an argument that
    [std::stoi] rejects.  When parameter [k] (1: bodies, 2: iterations,
    3: time step) is given by an argument without digits or outside the
    range of [int], a message is written to [std::cerr], but the slot
    [input[k]] is never written: the parameter is read from it all the
    same and is indeterminate, where the claim wants the default. *)
Theorem rejected_argument_is_read_unset (argv : list string) (k : nat) (arg : string) :
  argv !! k = Some arg -> 1 <= k <= 3 ->
  Cli.stoi arg = Cli.Invalid_argument \/ Cli.stoi arg = Cli.Out_of_range ->
  parameter (Cli.main_config argv).1 k = None /\
  (Cli.stoi arg = Cli.Invalid_argument ->
   ("Invalid number: " +:+ arg +:+ Cli.newline) ∈ (Cli.main_config argv).2) /\
  (Cli.stoi arg = Cli.Out_of_range ->
   ("Number out of range: " +:+ arg +:+ Cli.newline) ∈ (Cli.main_config argv).2).
Proof. apply main_config_rejected. Qed.

(** The hypotheses of C8 hold for the command line [./main abc]. *)
Lemma rejected_argument_is_read_unset_witness :
  ["./main"; "abc"] !! 1 = Some "abc" /\
  Cli.stoi "abc" = Cli.Invalid_argument /\
  Cli.num_bodies (Cli.main_config ["./main"; "abc"]).1 = None /\
  Cli.main_config ["./main"; "abc"] =
    (Cli.Config None (Some 100%Z) (Some 1%Z),
     ["Invalid number: " +:+ "abc" +:+ Cli.newline]).
Proof.
  split; [reflexivity|]. split; [reflexivity|]. split.
  - apply (rejected_argument_is_read_unset ["./main"; "abc"] 1 "abc");
      [reflexivity | lia | left; reflexivity].
  - vm_compute. reflexivity.
Defined.

(** A count below zero is neither reported nor replaced: it is the number
    of bodies. *)
Lemma negative_count_is_accepted :
  Cli.main_config ["./main"; "-5"] =
    (Cli.Config (Some (-5)%Z) (Some 100%Z) (Some 1%Z), []).
Proof. vm_compute. reflexivity. Qed.

(** C9, as stated, fails.  The time step [0.5] becomes 0, but not
    silently: a message goes to [std::cerr].  The time step [1e-3], whose
    integer part is 0, becomes 1.  The time step [.5] leaves [delta_t]
    indeterminate. *)
Lemma fractional_timestep_not_silently_truncated :
  Cli.main_config ["./main"; "10"; "100"; "0.5"] =
    (Cli.Config (Some 10%Z) (Some 100%Z) (Some 0%Z),
     ["Trailing characters after number: " +:+ "0.5" +:+ Cli.newline]) /\
  Cli.delta_t (Cli.main_config ["./main"; "10"; "100"; "1e-3"]).1 = Some 1%Z /\
  Cli.delta_t (Cli.main_config ["./main"; "10"; "100"; ".5"]).1 = None.
Proof. repeat split; vm_compute; reflexivity. Qed.

(** C9, amended: [delta_t] is an [int].  Without a time step argument
    it is 1, the literal [1.0] converted.  A time step argument made of
    decimal digits (a value that fits an [int]) followed by a point and
    anything else gives the integer those digits denote, and the message
    "Trailing characters after number" is the last written to [std::cerr];
    [integrate] receives that integer converted to [double]. *)
Theorem timestep_is_an_int (prog a1 a2 frac : string) (ds : list Z) :
  ds <> [] -> Forall is_digit ds -> (decimal_value ds <= Cli.INT_MAX)%Z ->
  let arg := digits_string ds +:+ "." +:+ frac in
  B64.to_Z (B64.of_decimal 10 1) = Some 1%Z /\
  Cli.delta_t (Cli.main_config [prog]).1 = Some 1%Z /\
  Cli.delta_t (Cli.main_config [prog; a1]).1 = Some 1%Z /\
  Cli.delta_t (Cli.main_config [prog; a1; a2]).1 = Some 1%Z /\
  Cli.delta_t (Cli.main_config [prog; a1; a2; arg]).1 = Some (decimal_value ds) /\
  last (Cli.main_config [prog; a1; a2; arg]).2
    = Some ("Trailing characters after number: " +:+ arg +:+ Cli.newline) /\
  (forall (st : machine B64.t) (j : nat),
     bodies (solve_phase (decimal_value ds) st) !! j
     = (fun b => integrate b (B64.of_Z (decimal_value ds))) <$> bodies st !! j).
Proof.
  intros Hne Hds Hmax arg.
  assert (Hstoi : Cli.stoi arg = Cli.Stoi_ok (decimal_value ds) (length ds)).
  { unfold arg. apply stoi_digits; [exact Hne | exact Hds | reflexivity | exact Hmax]. }
  assert (Hpos : length ds < String.length arg).
  { unfold arg. rewrite !length_string_app, length_digits_string.
    change (String.length ".") with 1. lia. }
  assert (Hrange : (- 2 ^ 53 < decimal_value ds < 2 ^ 53)%Z).
  { pose proof (foldl_decimal_nonneg ds 0 Hds ltac:(lia)) as Hnn.
    fold (decimal_value ds) in Hnn. unfold Cli.INT_MAX in Hmax. lia. }
  destruct (main_config_trailing prog a1 a2 arg _ _ Hstoi Hpos Hrange) as [Hdt Herr].
  split; [vm_compute; reflexivity|].
  split; [reflexivity|]. split; [reflexivity|]. split; [reflexivity|].
  split; [exact Hdt|]. split; [exact Herr|].
  intros st j.
  destruct (solve_phase_spec (decimal_value ds) st) as (_ & Hlook & _).
  exact (Hlook j).
Qed.

(** The hypotheses of C9 hold for the command line [./main 10 100 0.5]. *)
Lemma timestep_is_an_int_witness :
  [0%Z] <> [] /\ Forall is_digit [0%Z] /\ (decimal_value [0%Z] <= Cli.INT_MAX)%Z /\
  digits_string [0%Z] +:+ "." +:+ "5" = "0.5" /\
  Cli.delta_t (Cli.main_config ["./main"; "10"; "100"; "0.5"]).1 = Some 0%Z.
Proof.
  assert (H1 : [0%Z] <> []) by discriminate.
  assert (H2 : Forall is_digit [0%Z]).
  { constructor; [unfold is_digit; lia | constructor]. }
  assert (H3 : (decimal_value [0%Z] <= Cli.INT_MAX)%Z) by (vm_compute; discriminate).
  split; [exact H1|]. split; [exact H2|]. split; [exact H3|].
  split; [reflexivity|].
  destruct (timestep_is_an_int "./main" "10" "100" "5" [0%Z] H1 H2 H3)
    as (_ & _ & _ & _ & Hdt & _).
  exact Hdt.
Defined.

(** ** What each function leaves alone *)

(** C10: whatever the arithmetic, [fsum] returns the computed body
    with its mass, position and velocity as they were; [integrate] returns
    it with its mass and force as they were; and after any number of
    iterations of the simulation loop every body has the mass it started
    with. *)
Theorem mass_is_constant {D : Type} `{Double D}
    (computed affecting : body D) (dt : D) (iterations delta_t : Z) (st : machine D) :
  (m (fsum computed affecting) = m computed /\
   x (fsum computed affecting) = x computed /\
   y (fsum computed affecting) = y computed /\
   v (fsum computed affecting) = v computed /\
   w (fsum computed affecting) = w computed) /\
  (m (integrate computed dt) = m computed /\
   f (integrate computed dt) = f computed /\
   g (integrate computed dt) = g computed) /\
  length (bodies (simulation_loop iterations delta_t st)) = length (bodies st) /\
  m <$> bodies (simulation_loop iterations delta_t st) = m <$> bodies st.
Proof.
  split; [apply fsum_frame|]. split; [apply integrate_frame|]. split.
  - apply simulation_loop_length.
  - apply simulation_loop_mass.
Qed.

(** * Part IV: further properties *)

(** ** The command line *)

(** X1: after [input_verify_stoi] the slot of every argument holds what
    [stoi] returns for that argument alone, or nothing when [stoi] throws;
    slot 0, the program name, is never written.  The messages on
    [std::cerr] are those of the arguments in their order, at most one for
    each. *)
Theorem input_array_after_verification (argv : list string) :
  Cli.verified (parsed argv) =
    imap (fun k arg => if decide (k = 0) then None else slot_of arg) argv /\
  Cli.cerr (parsed argv) = flat_map diagnostic (drop 1 argv) /\
  length (Cli.verified (parsed argv)) = length argv /\
  length (Cli.cerr (parsed argv)) <= length argv - 1.
Proof.
  split; [apply parsed_verified|]. split; [apply parsed_cerr|]. split.
  - rewrite parsed_verified. apply length_imap.
  - rewrite parsed_cerr, <- (length_drop argv 1).
    induction (drop 1 argv) as [|arg l IH]; [reflexivity|].
    cbn [flat_map]. rewrite length_app. cbn [length].
    pose proof (diagnostic_length arg). lia.
Qed.

(** X2: the three parameters [main] computes.  Each is its default (10
    bodies, 100 iterations, time step 1) when the command line has no
    argument at its position; else it is the integer [stoi] reads from the
    argument, or indeterminate when [stoi] throws.  The time step goes
    through [double] and back without change. *)
Theorem parameters_of_the_run (argv : list string) :
  Cli.main_config argv =
  (Cli.Config (supplied argv 1) (supplied argv 2) (supplied argv 3),
   flat_map diagnostic (drop 1 argv)).
Proof. apply main_config_supplied_all. Qed.

(** X3: arguments after the third are verified and reported like the
    others, but no parameter depends on them. *)
Theorem further_arguments_are_ignored (argv more : list string) :
  4 <= length argv ->
  (Cli.main_config (argv ++ more)).1 = (Cli.main_config argv).1 /\
  (Cli.main_config (argv ++ more)).2 = (Cli.main_config argv).2 ++ flat_map diagnostic more.
Proof.
  intros Hlen. rewrite !main_config_supplied_all. cbn [fst snd]. split.
  - unfold supplied. rewrite !lookup_app_l by lia. reflexivity.
  - rewrite drop_app_le by lia. apply flat_map_app.
Qed.

(** The hypothesis of X3 holds for [./main 10 100 1] followed by [junk]. *)
Lemma further_arguments_are_ignored_witness :
  4 <= length ["./main"; "10"; "100"; "1"] /\
  (Cli.main_config (["./main"; "10"; "100"; "1"] ++ ["junk"])).1
    = (Cli.main_config ["./main"; "10"; "100"; "1"]).1.
Proof.
  assert (Hlen : 4 <= length ["./main"; "10"; "100"; "1"]) by (cbn [length]; lia).
  split; [exact Hlen|].
  exact (proj1 (further_arguments_are_ignored ["./main"; "10"; "100"; "1"] ["junk"] Hlen)).
Defined.

(** X4: nothing is written to [std::cerr] exactly when [stoi] accepts
    every argument after the program name up to its last character. *)
Theorem silent_iff_all_numeric (argv : list string) :
  (Cli.main_config argv).2 = [] <->
  Forall (fun arg => exists value, Cli.stoi arg = Cli.Stoi_ok value (String.length arg))
         (drop 1 argv).
Proof.
  rewrite main_config_cerr.
  induction (drop 1 argv) as [|arg l IH].
  - split; [constructor | reflexivity].
  - cbn [flat_map]. split.
    + intros Hnil. apply app_eq_nil in Hnil as [Ha Hl].
      constructor; [apply diagnostic_nil, Ha | apply IH, Hl].
    + intros Hall. inversion Hall as [|? ? Ha Hl]; subst.
      apply diagnostic_nil in Ha. rewrite Ha. apply IH, Hl.
Qed.

(** X5: an argument made of white space, an optional sign and decimal
    digits whose value fits an [int] is accepted whole: the number of
    bodies is that value, negative ones included, and nothing is
    reported. *)
Theorem numeral_argument_is_used (prog ws : string) (sg : sign) (ds : list Z) :
  all_space ws -> ds <> [] -> Forall is_digit ds ->
  (Cli.INT_MIN <= signed sg (decimal_value ds) <= Cli.INT_MAX)%Z ->
  Cli.main_config [prog; ws +:+ sign_string sg +:+ digits_string ds] =
  (Cli.Config (Some (signed sg (decimal_value ds))) (Some 100%Z) (Some 1%Z), []).
Proof.
  intros Hws Hne Hds Hrange.
  set (arg := ws +:+ sign_string sg +:+ digits_string ds).
  assert (Hstoi : Cli.stoi arg =
            Cli.Stoi_ok (signed sg (decimal_value ds)) (String.length arg)).
  { pose proof (stoi_numeral ws "" sg ds Hws Hne Hds I) as Hnum.
    rewrite string_app_nil_r in Hnum. fold arg in Hnum. rewrite Hnum.
    destruct (Z.ltb_spec (signed sg (decimal_value ds)) Cli.INT_MIN); [lia|].
    destruct (Z.ltb_spec Cli.INT_MAX (signed sg (decimal_value ds))); [lia|].
    cbn [orb]. f_equal. unfold arg.
    rewrite !length_string_app, length_digits_string. lia. }
  rewrite main_config_supplied_all. unfold supplied.
  cbn [lookup list_lookup drop flat_map default_parameter].
  unfold slot_of, diagnostic. rewrite Hstoi, Nat.ltb_irrefl. reflexivity.
Qed.

(** The hypotheses of X5 hold for the command line [./main " -5"]. *)
Lemma numeral_argument_is_used_witness :
  all_space " " /\ [5%Z] <> [] /\ Forall is_digit [5%Z] /\
  Cli.main_config ["./main"; " " +:+ sign_string Minus +:+ digits_string [5%Z]] =
  (Cli.Config (Some (-5)%Z) (Some 100%Z) (Some 1%Z), []).
Proof.
  assert (H1 : all_space " ") by (split; [reflexivity | exact I]).
  assert (H2 : [5%Z] <> []) by discriminate.
  assert (H3 : Forall is_digit [5%Z]).
  { constructor; [unfold is_digit; lia | constructor]. }
  split; [exact H1|]. split; [exact H2|]. split; [exact H3|].
  apply (numeral_argument_is_used "./main" " " Minus [5%Z] H1 H2 H3).
  vm_compute. split; discriminate.
Defined.

(** X6: an argument without any decimal digit (the empty argument, a
    word, a lone sign) leaves its parameter indeterminate, and "Invalid
    number" is reported for it. *)
Theorem digitless_argument_is_rejected (argv : list string) (k : nat) (arg : string) :
  argv !! k = Some arg -> 1 <= k <= 3 -> no_digit arg ->
  parameter (Cli.main_config argv).1 k = None /\
  ("Invalid number: " +:+ arg +:+ Cli.newline) ∈ (Cli.main_config argv).2.
Proof.
  intros Hk Hrange Hno.
  pose proof (stoi_no_digit arg Hno) as Hstoi.
  destruct (main_config_rejected argv k arg Hk Hrange (or_introl Hstoi))
    as (Hpar & Hmsg & _).
  split; [exact Hpar | exact (Hmsg Hstoi)].
Qed.

(** The hypotheses of X6 hold for an empty second argument. *)
Lemma digitless_argument_is_rejected_witness :
  ["./main"; "10"; ""] !! 2 = Some "" /\ no_digit "" /\
  Cli.iterations (Cli.main_config ["./main"; "10"; ""]).1 = None.
Proof.
  split; [reflexivity|]. split; [exact I|].
  apply (digitless_argument_is_rejected ["./main"; "10"; ""] 2 "");
    [reflexivity | lia | exact I].
Defined.

(** X7: an argument made of white space, an optional sign and decimal
    digits whose value does not fit an [int] leaves its parameter
    indeterminate, and "Number out of range" is reported for it, whatever
    follows the digits. *)
Theorem oversized_argument_is_rejected (argv : list string) (k : nat)
    (ws rest : string) (sg : sign) (ds : list Z) :
  argv !! k = Some (ws +:+ sign_string sg +:+ digits_string ds +:+ rest) ->
  1 <= k <= 3 ->
  all_space ws -> ds <> [] -> Forall is_digit ds -> no_leading_digit rest ->
  (signed sg (decimal_value ds) < Cli.INT_MIN
   \/ Cli.INT_MAX < signed sg (decimal_value ds))%Z ->
  parameter (Cli.main_config argv).1 k = None /\
  ("Number out of range: " +:+ (ws +:+ sign_string sg +:+ digits_string ds +:+ rest)
     +:+ Cli.newline) ∈ (Cli.main_config argv).2.
Proof.
  intros Hk Hrange Hws Hne Hds Hrest Hbig.
  set (arg := ws +:+ sign_string sg +:+ digits_string ds +:+ rest) in *.
  assert (Hstoi : Cli.stoi arg = Cli.Out_of_range).
  { unfold arg. rewrite (stoi_numeral ws rest sg ds Hws Hne Hds Hrest).
    destruct (Z.ltb_spec (signed sg (decimal_value ds)) Cli.INT_MIN);
      [reflexivity|].
    destruct (Z.ltb_spec Cli.INT_MAX (signed sg (decimal_value ds)));
      [reflexivity | lia]. }
  destruct (main_config_rejected argv k arg Hk Hrange (or_intror Hstoi))
    as (Hpar & _ & Hmsg).
  split; [exact Hpar | exact (Hmsg Hstoi)].
Qed.

(** The hypotheses of X7 hold for the count [2147483648]. *)
Lemma oversized_argument_is_rejected_witness :
  ["./main"; "2147483648"] !! 1
    = Some ("" +:+ sign_string No_sign
            +:+ digits_string [2; 1; 4; 7; 4; 8; 3; 6; 4; 8]%Z +:+ "") /\
  Cli.num_bodies (Cli.main_config ["./main"; "2147483648"]).1 = None.
Proof.
  split; [reflexivity|].
  apply (oversized_argument_is_rejected ["./main"; "2147483648"] 1 "" "" No_sign
           [2; 1; 4; 7; 4; 8; 3; 6; 4; 8]%Z).
  - reflexivity.
  - lia.
  - exact I.
  - discriminate.
  - repeat (constructor; [unfold is_digit; lia|]). constructor.
  - exact I.
  - right. vm_compute. reflexivity.
Defined.

(** ** Runs *)

(** X8: a run of [iterations] timesteps over [n] bodies appends to the
    events [iterations] times those of one timestep (none when
    [iterations] is not positive): [iterations * n * (n - 1)] calls of
    [fsum], [iterations * n] calls of [integrate] and as many outputs.  The
    calls listed are the ones made: the array after the run is the one
    obtained by making, [iterations] times over, the calls of one timestep
    on the array with its forces cleared. *)
Theorem calls_of_a_run {D : Type} `{Double D} (iterations delta_t : Z) (st : machine D) :
  calls (simulation_loop iterations delta_t st)
    = calls st ++ run_calls (num_bodies st) (Z.to_nat iterations) /\
  count_fsum_calls (run_calls (num_bodies st) (Z.to_nat iterations))
    = Z.to_nat iterations * (num_bodies st * (num_bodies st - 1)) /\
  length (List.filter is_integrate_call (run_calls (num_bodies st) (Z.to_nat iterations)))
    = Z.to_nat iterations * num_bodies st /\
  length (List.filter is_output (run_calls (num_bodies st) (Z.to_nat iterations)))
    = Z.to_nat iterations * num_bodies st /\
  bodies (simulation_loop iterations delta_t st)
    = Nat.iter (Z.to_nat iterations) (replay delta_t (num_bodies st)) (bodies st).
Proof.
  split; [apply simulation_loop_calls|].
  destruct (count_run_calls (num_bodies st) (Z.to_nat iterations)) as (H1 & H2 & H3).
  split; [exact H1|]. split; [exact H2|]. split; [exact H3|].
  apply simulation_loop_replay.
Qed.

(** X9: running [a + b] timesteps is running [a] and then [b], events
    included; a count of iterations that is zero or negative runs
    nothing. *)
Theorem runs_compose {D : Type} `{Double D} (a b delta_t : Z) (st : machine D) :
  (0 <= a)%Z -> (0 <= b)%Z ->
  simulation_loop (a + b) delta_t st
    = simulation_loop b delta_t (simulation_loop a delta_t st) /\
  simulation_loop (- a) delta_t st = st.
Proof.
  intros Ha Hb. split.
  - apply simulation_loop_add; assumption.
  - apply simulation_loop_nonpos. lia.
Qed.

(** The hypotheses of X9 hold for 1 and 2 timesteps of the two-body
    scenario. *)
Lemma runs_compose_witness :
  (0 <= 1)%Z /\ (0 <= 2)%Z /\
  simulation_loop (1 + 2) 1 (two_body (D := B64.t))
    = simulation_loop 2 1 (simulation_loop 1 1 (two_body (D := B64.t))).
Proof.
  assert (H1 : (0 <= 1)%Z) by lia. assert (H2 : (0 <= 2)%Z) by lia.
  split; [exact H1|]. split; [exact H2|].
  exact (proj1 (runs_compose 1 2 1 (two_body (D := B64.t)) H1 H2)).
Defined.

(** X10: in one timestep every body is advanced from the array as it was
    when the timestep began: its force is summed over the other bodies at
    their old positions, whether they come before or after it in the
    array, and only then is it integrated. *)
Theorem timestep_reads_the_old_array {D : Type} `{Double D}
    (delta_t : Z) (st : machine D) :
  bodies (timestep_body delta_t st) = imap (advanced delta_t (bodies st)) (bodies st).
Proof. apply timestep_body_imap. Qed.

(** ** NaN in binary64 *)

(** X15: in binary64, when the array holds at least two bodies and the
    position of one of them has a NaN coordinate, then after one timestep,
    and after any number of further ones, position and velocity of every
    body are NaN. *)
Theorem nan_position_spreads (t : nat) (delta_t : Z) (st : machine B64.t) (j : nat)
    (bj : body B64.t) :
  bodies st !! j = Some bj -> nan_position bj -> 2 <= num_bodies st ->
  Forall all_nan (bodies (simulation_loop (Z.of_nat (S t)) delta_t st)).
Proof. apply b64_run_contagion. Qed.

(** The hypotheses of X15 hold for a body with a NaN abscissa beside a
    sound body. *)
Lemma nan_position_spreads_witness :
  bodies (Machine [sound_body; lost_body] []) !! 1 = Some lost_body /\
  nan_position lost_body /\
  Forall all_nan (bodies (simulation_loop (Z.of_nat 1) 1 (Machine [sound_body; lost_body] []))).
Proof.
  assert (Hn : nan_position lost_body) by (left; reflexivity).
  split; [reflexivity|]. split; [exact Hn|].
  apply (nan_position_spreads 0 1 (Machine [sound_body; lost_body] []) 1 lost_body);
    [reflexivity | exact Hn | cbn [num_bodies bodies length]; lia].
Defined.

(** X16: in binary64, when two bodies of the array have the same
    coordinates, then after two timesteps, and after any number of further
    ones, position and velocity of every body of the array are NaN. *)
Theorem coincident_bodies_ruin_the_run (t : nat) (delta_t : Z) (st : machine B64.t)
    (i j : nat) (bi bj : body B64.t) :
  bodies st !! i = Some bi -> bodies st !! j = Some bj -> i <> j ->
  B64.same_coordinate (x bj) (x bi) -> B64.same_coordinate (y bj) (y bi) ->
  Forall all_nan (bodies (simulation_loop (Z.of_nat (S (S t))) delta_t st)).
Proof. apply b64_coincident_run. Qed.

(** The hypotheses of X16 hold for two bodies on [(3, 4)] beside a third
    one elsewhere. *)
Lemma coincident_bodies_ruin_the_run_witness :
  bodies (Machine [light_at_3_4; sound_body; heavy_at_3_4] []) !! 0 = Some light_at_3_4 /\
  bodies (Machine [light_at_3_4; sound_body; heavy_at_3_4] []) !! 2 = Some heavy_at_3_4 /\
  Forall all_nan
    (bodies (simulation_loop (Z.of_nat 2) 1
               (Machine [light_at_3_4; sound_body; heavy_at_3_4] []))).
Proof.
  split; [reflexivity|]. split; [reflexivity|].
  apply (coincident_bodies_ruin_the_run 0 1
           (Machine [light_at_3_4; sound_body; heavy_at_3_4] []) 0 2
           light_at_3_4 heavy_at_3_4);
    [reflexivity | reflexivity | lia | left; reflexivity | left; reflexivity].
Defined.

(** X17: in binary64 a body alone, of finite non-zero mass and with
    velocity components that are finite and not the negative zero, keeps
    its velocity bit for bit over a run with an [int] time step; its force
    is zero and each position coordinate receives, at every timestep, the
    rounded sum with the rounded product of time step and velocity. *)
Theorem isolated_body_in_binary64 (b : body B64.t) (t : nat) (delta_t : Z)
    (tr : list event) :
  (Cli.INT_MIN <= delta_t <= Cli.INT_MAX)%Z ->
  B64.nonzero_finite (m b) -> b64_plain (v b) -> b64_plain (w b) ->
  bodies (simulation_loop (Z.of_nat (S t)) delta_t (Machine [b] tr)) =
  [Body (m b)
        (b64_drift (B64.of_Z delta_t) (v b) (S t) (x b))
        (b64_drift (B64.of_Z delta_t) (w b) (S t) (y b))
        (v b) (w b) B64.zero B64.zero].
Proof.
  intros Hdt. apply b64_isolated_run. unfold Cli.INT_MIN, Cli.INT_MAX in Hdt. lia.
Qed.

(** The hypotheses of X17 hold for a body of mass 2 with velocity
    [(3, 0)], followed over two steps of size 2: its abscissa goes from 1
    to 13. *)
Lemma isolated_body_in_binary64_witness :
  (Cli.INT_MIN <= 2 <= Cli.INT_MAX)%Z /\
  B64.nonzero_finite (m moving_body) /\ b64_plain (v moving_body) /\
  b64_plain (w moving_body) /\
  x <$> bodies (simulation_loop (Z.of_nat 2) 2 (Machine [moving_body] []))
    = [B64.of_Z 13].
Proof.
  assert (H1 : (Cli.INT_MIN <= 2 <= Cli.INT_MAX)%Z) by (vm_compute; split; discriminate).
  assert (H2 : B64.nonzero_finite (m moving_body)) by exact I.
  assert (H3 : b64_plain (v moving_body)) by exact I.
  assert (H4 : b64_plain (w moving_body)) by exact I.
  split; [exact H1|]. split; [exact H2|]. split; [exact H3|]. split; [exact H4|].
  rewrite (isolated_body_in_binary64 moving_body 1 2 [] H1 H2 H3 H4).
  vm_compute. reflexivity.
Defined.

(** ** The plot buffers and the whole program *)

(** X18: after the loop that integrates the bodies, every slot of the
    buffers [xcoords] and [ycoords] has been written, whatever it held, and
    holds the coordinate of the body of the same index as it is after its
    integration; the bodies are those of the solve phase. *)
Theorem plot_buffers_hold_positions {D : Type} `{Double D}
    (delta_t : Z) (pm : plot_machine D) (tr : list event) :
  length (xcoords pm) = length (plot_bodies pm) ->
  length (ycoords pm) = length (plot_bodies pm) ->
  plot_bodies (solve_loop delta_t pm)
    = bodies (solve_phase delta_t (Machine (plot_bodies pm) tr)) /\
  xcoords (solve_loop delta_t pm)
    = (fun b => Some (x b)) <$> plot_bodies (solve_loop delta_t pm) /\
  ycoords (solve_loop delta_t pm)
    = (fun b => Some (y b)) <$> plot_bodies (solve_loop delta_t pm).
Proof. apply solve_loop_spec. Qed.

(** The hypotheses of X18 hold for the two-body scenario with buffers
    never written. *)
Lemma plot_buffers_hold_positions_witness :
  length (xcoords (Plot_machine (bodies (two_body (D := B64.t))) [None; None] [None; None]))
    = length (bodies (two_body (D := B64.t))) /\
  xcoords (solve_loop 1 (Plot_machine (bodies (two_body (D := B64.t)))
                                      [None; None] [None; None]))
    = (fun b => Some (x b))
        <$> plot_bodies (solve_loop 1 (Plot_machine (bodies (two_body (D := B64.t)))
                                                    [None; None] [None; None])).
Proof.
  split; [reflexivity|].
  destruct (plot_buffers_hold_positions 1
              (Plot_machine (bodies (two_body (D := B64.t))) [None; None] [None; None])
              [] eq_refl eq_refl) as (_ & Hx & _).
  exact Hx.
Defined.

(** X19: when [stoi] accepts the first three arguments, trailing
    characters or not, and the array has as many bodies as the first says,
    [main] is the simulation loop run on that array for the second's
    number of iterations with the third as time step; what is reported is
    reported for the arguments in their order. *)
Theorem main_runs_the_simulation (prog a1 a2 a3 : string) (more : list string)
    (n it dt : Z) (p1 p2 p3 : nat) (initial : list (body B64.t)) :
  Cli.stoi a1 = Cli.Stoi_ok n p1 -> Cli.stoi a2 = Cli.Stoi_ok it p2 ->
  Cli.stoi a3 = Cli.Stoi_ok dt p3 -> Z.of_nat (length initial) = n ->
  Cli.main (prog :: a1 :: a2 :: a3 :: more) initial =
  (Some (simulation_loop it dt (Machine initial [])),
   flat_map diagnostic (a1 :: a2 :: a3 :: more)).
Proof.
  intros H1 H2 H3 Hlen. rewrite main_eq. unfold supplied, slot_of.
  cbn [lookup list_lookup drop]. rewrite H1, H2, H3.
  destruct (decide (Z.of_nat (length initial) = n)); [reflexivity | contradiction].
Qed.

(** The hypotheses of X19 hold for [./main 2 1 1.5] on the two-body
    scenario. *)
Lemma main_runs_the_simulation_witness :
  Cli.stoi "2" = Cli.Stoi_ok 2 1 /\ Cli.stoi "1.5" = Cli.Stoi_ok 1 1 /\
  (Cli.main ["./main"; "2"; "1"; "1.5"] (bodies two_body)).1
    = Some (simulation_loop 1 1 (Machine (bodies two_body) [])).
Proof.
  split; [reflexivity|]. split; [reflexivity|].
  rewrite (main_runs_the_simulation "./main" "2" "1" "1.5" [] 2 1 1 1 1 1
             (bodies two_body) eq_refl eq_refl eq_refl eq_refl).
  reflexivity.
Defined.
